(** * PyExifTool: the process supervisor and the sentinel-delimited batch protocol

    A shallow embedding of [exiftool.py].  The module drives one long-lived
    child process over two pipes; every effect of the Python code (spawning,
    writing, flushing, reading, waiting, warning, raising) is written out as a
    transformation of an explicit [World]. *)

From Stdlib Require Import Ascii String ZArith Lia.
From stdpp Require Import base list option.

Set Warnings "-register-all".

Local Open Scope nat_scope.

(** ** Python values used by the module *)

(** A Python 2 [str] is a byte string. *)
Abbreviation bytes := (list ascii).

Definition B (s : string) : bytes := list_ascii_of_string s.

Definition nl : ascii := Ascii.ascii_of_nat 10.

#[global] Instance ascii_eq_decision : EqDecision ascii := ascii_dec.

(** [s.endswith(suffix)] *)
Definition endswith (s suffix : bytes) : bool :=
  (length suffix <=? length s) &&
  bool_decide (drop (length s - length suffix) s = suffix).

(** [s[:stop]], for any integer [stop] (negative values count from the end). *)
Definition slice_to (stop : Z) (s : bytes) : bytes :=
  if (stop <? 0)%Z
  then take (Z.to_nat (Z.max 0 (Z.of_nat (length s) + stop))) s
  else take (Z.to_nat stop) s.

(** [str.join(sep, parts)] *)
Fixpoint join (sep : bytes) (parts : list bytes) : bytes :=
  match parts with
  | [] => []
  | [p] => p
  | p :: rest => p ++ sep ++ join sep rest
  end.

(** What [json.loads] can return. Floats are kept as their literal text. *)
Inductive pyval : Type :=
| PNone
| PBool (b : bool)
| PInt (z : Z)
| PFloat (literal : bytes)
| PStr (s : bytes)
| PList (items : list pyval)
| PDict (items : list (bytes * pyval)).

(** A [dict] is kept as its items in iteration order; a Python dict holds a
    key at most once. *)
Abbreviation dict := (list (bytes * pyval)).

Inductive exn : Type :=
| ValueError (msg : bytes)
| TypeError (msg : bytes)
| AttributeError (attr : bytes)
| KeyError (key : bytes)
| IndexError
| OSError.

(** An argument that Python lets be either a string or another iterable of
    strings ([isinstance(x, basestring)] tells them apart). *)
Inductive pyarg : Type :=
| AStr (s : bytes)
| AIter (items : list bytes).

Definition isinstance_basestring (a : pyarg) : bool :=
  match a with AStr _ => true | AIter _ => false end.

(** Iterating an argument: a string yields its characters one by one. *)
Definition iterate (a : pyarg) : list bytes :=
  match a with
  | AStr s => map (fun c => [c]) s
  | AIter l => l
  end.

(** ** Module globals *)

Definition executable : bytes := B "exiftool".

Definition sentinel : bytes := B "{ready}" ++ [nl].

Definition block_size : nat := 4096.

(** ** The world: the instance and the operating system around it *)

(** A [subprocess.Popen] object: the child's pid, its command line and the
    read end of the pipe on its standard output.  [stdout] lists the data the
    child makes available, one entry per arrival; an exhausted list is a pipe
    on which nothing more arrives. *)
Record Popen : Type := mkPopen {
  pid : nat;
  args : list bytes;
  stdout : list bytes
}.

(** What the program does to the outside world, in order. *)
Inductive event : Type :=
| Warn (msg : bytes)
| Spawn (child : nat) (argv : list bytes)
| Write (child : nat) (data : bytes)
| Flush (child : nat)
| Communicate (child : nat).

Record World : Type := mkWorld {
  self_executable : bytes;
  running : bool;
  _process : option Popen;
  children : list nat;
  next_pid : nat;
  tool_output : nat -> list bytes;
  trace : list event
}.

Definition set_running (b : bool) (w : World) : World :=
  mkWorld (self_executable w) b (_process w) (children w) (next_pid w)
          (tool_output w) (trace w).

Definition set_process (p : option Popen) (w : World) : World :=
  mkWorld (self_executable w) (running w) p (children w) (next_pid w)
          (tool_output w) (trace w).

Definition set_children (c : list nat) (w : World) : World :=
  mkWorld (self_executable w) (running w) (_process w) c (next_pid w)
          (tool_output w) (trace w).

Definition set_next_pid (n : nat) (w : World) : World :=
  mkWorld (self_executable w) (running w) (_process w) (children w) n
          (tool_output w) (trace w).

Definition emit (e : event) (w : World) : World :=
  mkWorld (self_executable w) (running w) (_process w) (children w) (next_pid w)
          (tool_output w) (trace w ++ [e]).

(** ** Computations: state, exceptions and divergence *)

Inductive outcome (A : Type) : Type :=
| Ret (a : A)
| Raise (e : exn)
| Diverge.
Arguments Ret {A} a.
Arguments Raise {A} e.
Arguments Diverge {A}.

Definition M (A : Type) : Type := World -> outcome A * World.

#[global] Instance M_ret : MRet M := fun A a w => (Ret a, w).

#[global] Instance M_bind : MBind M := fun A B f m w =>
  match m w with
  | (Ret a, w') => f a w'
  | (Raise e, w') => (Raise e, w')
  | (Diverge, w') => (Diverge, w')
  end.

Definition raise {A} (e : exn) : M A := fun w => (Raise e, w).
Definition diverge {A} : M A := fun w => (Diverge, w).
Definition gets {A} (f : World -> A) : M A := fun w => (Ret (f w), w).
Definition modify (f : World -> World) : M unit := fun w => (Ret tt, f w).

(** ** Primitive effects *)

(** [warnings.warn(msg)] *)
Definition warnings_warn (msg : bytes) : M unit := modify (emit (Warn msg)).

(** [subprocess.Popen(argv, stdin=PIPE, stdout=PIPE)]: the executable is
    taken to be found, so the call returns a handle on a new child whose
    output is what [tool_output] says of its pid. *)
Definition subprocess_Popen (argv : list bytes) : M Popen := fun w =>
  let child := next_pid w in
  let p := mkPopen child argv (tool_output w child) in
  (Ret p, emit (Spawn child argv)
            (set_children (children w ++ [child]) (set_next_pid (S child) w))).

(** [self._process]: reading an attribute that is not set raises. *)
Definition get_process : M Popen := fun w =>
  match _process w with
  | Some p => (Ret p, w)
  | None => (Raise (AttributeError (B "_process")), w)
  end.

(** [self._process.stdin.write(data)] and [self._process.stdin.flush()] *)
Definition stdin_write (data : bytes) : M unit :=
  p ← get_process;
  modify (emit (Write (pid p) data)).

Definition stdin_flush : M unit :=
  p ← get_process;
  modify (emit (Flush (pid p))).

(** One [read] on a pipe: at most [n] bytes of what has arrived first; the
    empty string when nothing arrives any more. *)
Definition pipe_read (n : nat) (pipe : list bytes) : bytes * list bytes :=
  match pipe with
  | [] => ([], [])
  | c :: rest =>
      if length c <=? n then (c, rest) else (take n c, drop n c :: rest)
  end.

(** [os.read(fd, n)] on the standard output of the instance's process. *)
Definition os_read (n : nat) : M bytes := fun w =>
  match _process w with
  | Some p =>
      let '(chunk, rest) := pipe_read n (stdout p) in
      (Ret chunk, set_process (Some (mkPopen (pid p) (args p) rest)) w)
  | None => (Raise OSError, w)
  end.

(** [self._process.communicate()]: close the input, read the output to its
    end, wait for the child to exit.  The child is taken to exit once told
    to, so the call returns. *)
Definition communicate : M unit :=
  p ← get_process;
  modify (fun w =>
    emit (Communicate (pid p))
      (set_children (filter (fun c => c <> pid p) (children w))
         (set_process (Some (mkPopen (pid p) (args p) [])) w))).

(** [del self._process] *)
Definition del_process : M unit :=
  _ ← get_process;
  modify (set_process None).

(** ** class ExifTool *)

Definition __init__ (executable_ : option bytes) (tool : nat -> list bytes) : World :=
  mkWorld (match executable_ with None => executable | Some e => e end)
          false None [] 0 tool [].

Definition start : M unit :=
  r ← gets running;
  if r : bool then
    warnings_warn (B "ExifTool already running; doing nothing.")
  else
    exe ← gets self_executable;
    p ← subprocess_Popen [exe; B "-stay_open"; B "True"; B "-@"; B "-"];
    modify (set_process (Some p));;
    modify (set_running true).

Definition terminate : M unit :=
  r ← gets running;
  if negb r then mret tt
  else
    stdin_write (B "-stay_open" ++ [nl] ++ B "False" ++ [nl]);;
    stdin_flush;;
    communicate;;
    del_process;;
    modify (set_running false).

Definition __enter__ : M unit := start.

Definition __exit__ (exc_type exc_val exc_tb : option exn) : M unit := terminate.

Definition __del__ : M unit := terminate.

(** The [while] loop of [execute]; [fuel] bounds the number of reads, and a
    loop that needs more does not return. *)
Fixpoint read_loop (fuel : nat) (output : bytes) : M bytes :=
  if endswith output sentinel then mret output
  else
    match fuel with
    | O => diverge
    | S fuel' =>
        chunk ← os_read block_size;
        read_loop fuel' (output ++ chunk)
    end.

Definition execute (fuel : nat) (params : list bytes) : M bytes :=
  r ← gets running;
  if negb r then raise (ValueError (B "ExifTool instance not running."))
  else
    let params := params ++ [B "-execute" ++ [nl]] in
    stdin_write (join [nl] params);;
    stdin_flush;;
    _ ← get_process;
    output ← read_loop fuel [];
    mret (slice_to (- Z.of_nat (length sentinel)) output).

(** ** The query helpers layered on [execute] *)

(** [x[0]] *)
Definition getitem0 (x : pyval) : M pyval :=
  match x with
  | PList (v :: _) => mret v
  | PList [] => raise IndexError
  | PStr (c :: _) => mret (PStr [c])
  | PStr [] => raise IndexError
  | PDict _ => raise (KeyError (B "0"))
  | _ => raise (TypeError (B "object has no attribute '__getitem__'"))
  end.

(** [for d in data]: what the loop variable ranges over. *)
Definition py_iter (data : pyval) : M (list pyval) :=
  match data with
  | PList l => mret l
  | PDict d => mret (map (fun kv => PStr (fst kv)) d)
  | PStr s => mret (map (fun c => PStr [c]) s)
  | _ => raise (TypeError (B "object is not iterable"))
  end.

Definition dict_lookup (key : bytes) (d : dict) : option pyval :=
  snd <$> List.find (fun kv => bool_decide (fst kv = key)) d.

Definition dict_remove (key : bytes) (d : dict) : dict :=
  List.filter (fun kv => negb (bool_decide (fst kv = key))) d.

(** [d.pop(key)], returning the dict that is left behind. *)
Definition method_pop (d : pyval) (key : bytes) : M dict :=
  match d with
  | PDict items =>
      match dict_lookup key items with
      | Some _ => mret (dict_remove key items)
      | None => raise (KeyError key)
      end
  | PList _ => raise (TypeError (B "an integer is required"))
  | _ => raise (AttributeError (B "pop"))
  end.

(** [next(d.itervalues(), None)] *)
Definition next_itervalues (d : dict) : pyval :=
  match d with
  | [] => PNone
  | (_, v) :: _ => v
  end.

(** The [for] loop of [get_tag_batch]. *)
Fixpoint tag_loop (data : list pyval) (result : list pyval) : M (list pyval) :=
  match data with
  | [] => mret result
  | d :: rest =>
      d' ← method_pop d (B "SourceFile");
      tag_loop rest (result ++ [next_itervalues d'])
  end.

Section Queries.

(** [json.loads] is the structured-text collaborator; [None] stands for the
    [ValueError] it raises on text that is not a JSON document. *)
Variable json_loads : bytes -> option pyval.

Definition loads (text : bytes) : M pyval :=
  match json_loads text with
  | Some v => mret v
  | None => raise (ValueError (B "No JSON object could be decoded"))
  end.

Definition get_metadata_batch (fuel : nat) (params : pyarg) : M pyval :=
  text ← execute fuel ([B "-G"; B "-j"; B "-n"] ++ iterate params);
  loads text.

Definition get_metadata (fuel : nat) (filename : bytes) : M pyval :=
  r ← get_metadata_batch fuel (AIter [filename]);
  getitem0 r.

Definition get_tags_batch (fuel : nat) (tags filenames : pyarg) : M pyval :=
  if isinstance_basestring tags then
    raise (TypeError (B "The argument 'tags' must be an iterable of strings"))
  else if isinstance_basestring filenames then
    raise (TypeError (B "The argument 'filenames' must be an iterable of strings"))
  else
    let params := map (fun t => B "-" ++ t) (iterate tags) in
    let params := params ++ iterate filenames in
    get_metadata_batch fuel (AIter params).

Definition get_tags (fuel : nat) (tags : pyarg) (filename : bytes) : M pyval :=
  r ← get_tags_batch fuel tags (AIter [filename]);
  getitem0 r.

Definition get_tag_batch (fuel : nat) (tag : bytes) (filenames : pyarg)
  : M (list pyval) :=
  data ← get_tags_batch fuel (AIter [tag]) filenames;
  items ← py_iter data;
  tag_loop items [].

Definition get_tag (fuel : nat) (tag filename : bytes) : M pyval :=
  r ← get_tag_batch fuel tag (AIter [filename]);
  match r with
  | v :: _ => mret v
  | [] => raise IndexError
  end.

(** *** Client code: method calls and the [with] statement *)

Inductive call : Type :=
| Call_start
| Call_terminate
| Call_execute (params : list bytes)
| Call_get_metadata_batch (params : pyarg)
| Call_get_metadata (filename : bytes)
| Call_get_tags_batch (tags filenames : pyarg)
| Call_get_tags (tags : pyarg) (filename : bytes)
| Call_get_tag_batch (tag : bytes) (filenames : pyarg)
| Call_get_tag (tag filename : bytes).

Definition run_call (fuel : nat) (c : call) : M unit :=
  match c with
  | Call_start => start
  | Call_terminate => terminate
  | Call_execute ps => execute fuel ps;; mret tt
  | Call_get_metadata_batch ps => get_metadata_batch fuel ps;; mret tt
  | Call_get_metadata f => get_metadata fuel f;; mret tt
  | Call_get_tags_batch ts fs => get_tags_batch fuel ts fs;; mret tt
  | Call_get_tags ts f => get_tags fuel ts f;; mret tt
  | Call_get_tag_batch t fs => get_tag_batch fuel t fs;; mret tt
  | Call_get_tag t f => get_tag fuel t f;; mret tt
  end.

Fixpoint run_calls (fuel : nat) (body : list call) : M unit :=
  match body with
  | [] => mret tt
  | c :: rest => run_call fuel c;; run_calls fuel rest
  end.

End Queries.

(** [with et: body].  [__exit__] returns [None], so an exception raised by the
    body propagates after the exit handler has run. *)
Definition with_statement {A} (body : M A) : M A := fun w =>
  match __enter__ w with
  | (Ret _, w1) =>
      match body w1 with
      | (Ret a, w2) =>
          match __exit__ None None None w2 with
          | (Ret _, w3) => (Ret a, w3)
          | (Raise e, w3) => (Raise e, w3)
          | (Diverge, w3) => (Diverge, w3)
          end
      | (Raise e, w2) =>
          match __exit__ (Some e) (Some e) (Some e) w2 with
          | (Ret _, w3) => (Raise e, w3)
          | (Raise e', w3) => (Raise e', w3)
          | (Diverge, w3) => (Diverge, w3)
          end
      | (Diverge, w2) => (Diverge, w2)
      end
  | (Raise e, w1) => (Raise e, w1)
  | (Diverge, w1) => (Diverge, w1)
  end.

(** ** Well-formed instances *)

(** The running flag, the process handle and the live children agree: this
    holds of a fresh instance and every method keeps it. *)
Definition consistent (w : World) : Prop :=
  if running w
  then exists p, _process w = Some p /\ children w = [pid p]
  else _process w = None /\ children w = [].

(** The shutdown directive written by [terminate]. *)
Definition shutdown_directive : bytes :=
  B "-stay_open" ++ [nl] ++ B "False" ++ [nl].

Definition already_running : bytes :=
  B "ExifTool already running; doing nothing.".

Definition not_running : exn :=
  ValueError (B "ExifTool instance not running.").

(** ** The read loop seen from the pipe *)

(** The accumulation buffer and the pipe after [k] reads of [block_size]. *)
Fixpoint accumulate (k : nat) (output : bytes) (pipe : list bytes)
  : bytes * list bytes :=
  match k with
  | O => (output, pipe)
  | S k' =>
      let '(chunk, rest) := pipe_read block_size pipe in
      accumulate k' (output ++ chunk) rest
  end.

(** The [k]-th read is the first after which the buffer ends with the
    sentinel. *)
Definition stops_at (k : nat) (output : bytes) (pipe : list bytes) : Prop :=
  endswith (fst (accumulate k output pipe)) sentinel = true /\
  forall j, j < k -> endswith (fst (accumulate j output pipe)) sentinel = false.

(** The bytes of [s] before the first occurrence of [pat], if [pat] occurs. *)
Fixpoint before_first (pat s : bytes) : option bytes :=
  if bool_decide (take (length pat) s = pat) then Some []
  else
    match s with
    | [] => None
    | c :: s' => cons c <$> before_first pat s'
    end.

(** The world right after [execute] has sent its batch to process [p]. *)
Definition batch_sent (params : list bytes) (p : Popen) (w : World) : World :=
  emit (Flush (pid p))
    (emit (Write (pid p) (join [nl] (params ++ [B "-execute" ++ [nl]]))) w).

(** The instance's process with [pipe] left on its standard output. *)
Definition with_stdout (pipe : list bytes) (p : Popen) (w : World) : World :=
  set_process (Some (mkPopen (pid p) (args p) pipe)) w.

(** A tool whose answer carries the sentinel text inside its content, all of
    it arriving at once. *)
Definition echoing_tool : nat -> list bytes :=
  fun _ => [B "a{ready}" ++ [nl] ++ B "b{ready}" ++ [nl]].

(** A started instance talking to [echoing_tool], and its process. *)
Definition echoing_world : World := snd (start (__init__ None echoing_tool)).

Definition echoing_process : Popen :=
  mkPopen 0 [executable; B "-stay_open"; B "True"; B "-@"; B "-"]
          (echoing_tool 0).

(** A tool that answers the first batch with [[]], in three pieces, and has
    more to say afterwards; a tool that prints nothing but the sentinel; and a
    tool that never prints anything. *)
Definition polite_tool : nat -> list bytes :=
  fun _ => [B "[]"; B "{rea"; B "dy}" ++ [nl]; B "later"].

Definition bare_tool : nat -> list bytes := fun _ => [sentinel].

Definition silent_tool : nat -> list bytes := fun _ => [].

Definition started (tool : nat -> list bytes) : World :=
  snd (start (__init__ None tool)).

Definition process_of (tool : nat -> list bytes) : Popen :=
  mkPopen 0 [executable; B "-stay_open"; B "True"; B "-@"; B "-"] (tool 0).

Definition SourceFile : bytes := B "SourceFile".

(** The value [get_tag_batch] appends for one record. *)
Definition tag_value (d : dict) : pyval :=
  next_itervalues (dict_remove SourceFile d).

(** The message of the [ValueError] of [json.loads]. *)
Definition not_json : exn := ValueError (B "No JSON object could be decoded").

(** A computation that leaves a well-formed instance well-formed, however it
    ends. *)
Definition keeps_consistent {A} (m : M A) : Prop :=
  forall w, consistent w -> consistent (snd (m w)).

(** No process of the instance is left. *)
Definition stopped (w : World) : Prop :=
  running w = false /\ _process w = None /\ children w = [].

(** A parser that knows the single document [[]]. *)
Definition loads_empty_array (text : bytes) : option pyval :=
  if bool_decide (text = B "[]") then Some (PList []) else None.

(** Two per-file records, the second without the requested tag, and a parser
    that always decodes to them. *)
Definition two_records : list dict :=
  [ [(SourceFile, PStr (B "a.jpg")); (B "EXIF:Model", PStr (B "X100"))];
    [(SourceFile, PStr (B "b.jpg"))] ].

Definition loads_two_records (text : bytes) : option pyval :=
  Some (PList (map PDict two_records)).

(** ** Vocabulary for the properties of the lifecycle and of the batches *)

(** The command line [start] launches. *)
Definition stay_open_argv (exe : bytes) : list bytes :=
  [exe; B "-stay_open"; B "True"; B "-@"; B "-"].

(** Arguments written one per line. *)
Definition lines (params : list bytes) : bytes :=
  concat (map (fun a => a ++ [nl]) params).

(** The text of a whole batch as the child reads it. *)
Definition batch_text (params : list bytes) : bytes :=
  lines params ++ B "-execute" ++ [nl].

Definition is_spawn (e : event) : bool :=
  match e with Spawn _ _ => true | _ => false end.

Definition is_communicate (e : event) : bool :=
  match e with Communicate _ => true | _ => false end.

Fixpoint count_events (f : event -> bool) (t : list event) : nat :=
  match t with
  | [] => 0
  | e :: t' => (if f e then 1 else 0) + count_events f t'
  end.

(** Every child ever spawned has been waited for, except the live ones, and
    pids are handed out in order. *)
Definition accounted (w : World) : Prop :=
  consistent w /\
  count_events is_spawn (trace w) =
    count_events is_communicate (trace w) + length (children w) /\
  next_pid w = count_events is_spawn (trace w).

(** A computation that keeps a property of the world, however it ends. *)
Definition keeps {A} (P : World -> Prop) (m : M A) : Prop :=
  forall w, P w -> P (snd (m w)).

(** A tool that answers two batches in turn. *)
Definition two_answers_tool : nat -> list bytes :=
  fun _ => [B "one"; sentinel; B "two" ++ sentinel; B "later"].

(** A parser that always decodes to the empty list, and one that always
    decodes to a single record holding the requested tag before the reserved
    field. *)
Definition loads_nothing (text : bytes) : option pyval := Some (PList []).

Definition model_first : dict :=
  [(B "EXIF:Model", PStr (B "X100")); (SourceFile, PStr (B "a.jpg"))].

Definition loads_model_first (text : bytes) : option pyval :=
  Some (PList [PDict model_first]).

(** A parser whose second record lacks the reserved field. *)
Definition loads_unnamed_record (text : bytes) : option pyval :=
  Some (PList [PDict model_first; PDict [(B "EXIF:Model", PStr (B "X200"))]]).

(** The pipe of [p] holds the response [body] to the next batch, in pieces
    none of which is empty, with the sentinel at its end and nowhere before,
    then [later]; [fuel] reads suffice to take it in. *)
Definition responds (p : Popen) (body : bytes) (later : list bytes) (fuel : nat)
  : Prop :=
  exists cs,
    stdout p = cs ++ later /\
    Forall (fun c : bytes => c <> []) cs /\
    concat cs = body ++ sentinel /\
    before_first sentinel (concat cs) = Some body /\
    length (concat cs) <= fuel.

(** The world after a batch has been sent and its response taken in. *)
Definition answered (params : list bytes) (later : list bytes) (p : Popen)
    (w : World) : World :=
  with_stdout later p (batch_sent params p w).

(** * The process supervisor: [start] and [terminate] *)

Ltac run_M :=
  cbv [mbind mret M_bind M_ret gets modify raise diverge
       get_process stdin_write stdin_flush communicate del_process
       warnings_warn]; simpl.

Lemma start_running w :
  running w = true -> start w = (Ret tt, emit (Warn already_running) w).
Proof. intros Hr. unfold start. run_M. now rewrite Hr. Qed.

Lemma terminate_not_running w :
  running w = false -> terminate w = (Ret tt, w).
Proof. intros Hr. unfold terminate. run_M. now rewrite Hr. Qed.

Lemma terminate_running w p :
  running w = true -> _process w = Some p ->
  terminate w =
    (Ret tt,
     mkWorld (self_executable w) false None
       (filter (fun c => c <> pid p) (children w)) (next_pid w) (tool_output w)
       (trace w ++ [Write (pid p) shutdown_directive; Flush (pid p);
                    Communicate (pid p)])).
Proof.
  intros Hr Hp. unfold terminate.
  repeat (progress (rewrite ?Hr, ?Hp; run_M)).
  unfold emit, set_running, set_process, set_children. simpl.
  now rewrite <- !app_assoc.
Qed.

Lemma terminate_returns_stopped w r w' :
  terminate w = (Ret r, w') -> running w' = false.
Proof.
  destruct (running w) eqn:Hr.
  - destruct (_process w) as [p|] eqn:Hp.
    + rewrite (terminate_running w p Hr Hp). now intros [= _ <-].
    + unfold terminate. run_M. rewrite Hr. run_M. rewrite Hp. discriminate.
  - rewrite (terminate_not_running w Hr). now intros [= _ <-].
Qed.

Lemma execute_stopped fuel params w :
  running w = false -> execute fuel params w = (Raise not_running, w).
Proof. intros Hr. unfold execute. run_M. now rewrite Hr. Qed.

(** C6: on a running instance [start] only records the warning: the flag, the
    process handle with its streams, the live children and the pid counter are
    the ones from before the call, and no process is spawned, so a well-formed
    instance still has its one live child; in particular [start] right after
    [start] is such a call. *)
Theorem start_when_running_only_warns (w : World) :
  running w = true ->
  start w = (Ret tt, emit (Warn already_running) w) /\
  running (snd (start w)) = true /\
  _process (snd (start w)) = _process w /\
  children (snd (start w)) = children w /\
  next_pid (snd (start w)) = next_pid w /\
  trace (snd (start w)) = trace w ++ [Warn already_running] /\
  (consistent w ->
   exists p, _process (snd (start w)) = Some p /\
             children (snd (start w)) = [pid p]) /\
  start (snd (start w)) =
    (Ret tt, emit (Warn already_running) (snd (start w))).
Proof.
  intros Hr. rewrite (start_running w Hr). simpl.
  repeat split; try assumption.
  - unfold consistent. now rewrite Hr.
  - apply start_running. exact Hr.
Qed.

(** C7: on an instance that is not running [terminate] returns at once and the
    world is the one from before the call; a second [terminate] after one that
    returned is such a call. *)
Theorem terminate_idempotent (w : World) :
  (running w = false -> terminate w = (Ret tt, w)) /\
  (forall r w', terminate w = (Ret r, w') -> terminate w' = (Ret tt, w')).
Proof.
  split.
  - apply terminate_not_running.
  - intros r w' H. apply terminate_not_running.
    exact (terminate_returns_stopped w r w' H).
Qed.

(** C8: on a running instance [terminate] writes the two lines [-stay_open] and
    [False] to the child's input, flushes it, waits for the child with
    [communicate], and leaves the instance without process handle and with
    the running flag cleared; nothing else happens. *)
Theorem terminate_sequence (w : World) (p : Popen) :
  running w = true -> _process w = Some p ->
  shutdown_directive = join [nl] [B "-stay_open"; B "False"] ++ [nl] /\
  exists w',
    terminate w = (Ret tt, w') /\
    trace w' = trace w ++ [Write (pid p) shutdown_directive; Flush (pid p);
                           Communicate (pid p)] /\
    _process w' = None /\
    running w' = false /\
    children w' = filter (fun c => c <> pid p) (children w) /\
    self_executable w' = self_executable w /\
    next_pid w' = next_pid w /\
    tool_output w' = tool_output w.
Proof.
  intros Hr Hp. split; [reflexivity |].
  eexists. split; [apply (terminate_running w p Hr Hp) |].
  simpl. repeat split.
Qed.

(** C3: on an instance whose running flag is false [execute] raises the
    invalid-state [ValueError] and the world, the child's input included, is
    the one from before the call; this is the case after any [terminate]
    that returned. *)
Theorem execute_requires_running (fuel : nat) (params : list bytes) (w : World) :
  (running w = false -> execute fuel params w = (Raise not_running, w)) /\
  (forall r w', terminate w = (Ret r, w') ->
     execute fuel params w' = (Raise not_running, w')).
Proof.
  split.
  - apply execute_stopped.
  - intros r w' H. apply execute_stopped.
    exact (terminate_returns_stopped w r w' H).
Qed.

(** * The batch protocol: [execute] *)

(** ** Byte strings *)

Lemma endswith_true s suffix :
  endswith s suffix = true <-> exists pre, s = pre ++ suffix.
Proof.
  unfold endswith. rewrite andb_true_iff, Nat.leb_le, bool_decide_eq_true.
  split.
  - intros [Hlen Hdrop]. exists (take (length s - length suffix) s).
    rewrite <- Hdrop at 2. now rewrite take_drop.
  - intros [pre ->]. rewrite length_app. split; [lia |].
    replace (length pre + length suffix - length suffix) with (length pre) by lia.
    now rewrite drop_app_length.
Qed.

Lemma endswith_app pre suffix : endswith (pre ++ suffix) suffix = true.
Proof. apply endswith_true. now exists pre. Qed.

Lemma slice_to_strips pre suffix :
  suffix <> [] ->
  slice_to (- Z.of_nat (length suffix)) (pre ++ suffix) = pre.
Proof.
  intros Hne. unfold slice_to.
  assert (0 < length suffix) by (destruct suffix; [congruence | simpl; lia]).
  destruct (Z.ltb_spec (- Z.of_nat (length suffix)) 0) as [_ | Hge]; [| lia].
  rewrite length_app.
  replace (Z.to_nat _) with (length pre) by lia.
  now rewrite take_app_length.
Qed.

Lemma sentinel_nonempty : sentinel <> [].
Proof. discriminate. Qed.

Lemma before_first_least pat s b :
  before_first pat s = Some b ->
  forall pre suf, s = pre ++ pat ++ suf -> length b <= length pre.
Proof.
  revert b. induction s as [| c s IH]; intros b; simpl.
  - case_bool_decide; [intros [= <-]; simpl; lia | discriminate].
  - case_bool_decide as Hpre.
    + intros [= <-]. simpl. lia.
    + destruct (before_first pat s) as [b' |] eqn:Hb; [| discriminate].
      simpl. intros [= <-] pre suf Heq.
      destruct pre as [| c' pre].
      * exfalso. apply Hpre. simpl in Heq. rewrite Heq.
        now rewrite take_app_length.
      * simpl in Heq. injection Heq as _ Heq. simpl.
        specialize (IH b' eq_refl pre suf Heq). lia.
Qed.

(** ** The world between two reads *)

Lemma with_stdout_same w p : _process w = Some p -> with_stdout (stdout p) p w = w.
Proof.
  intros Hp. destruct w, p. simpl in Hp. subst.
  reflexivity.
Qed.

Lemma os_read_running w p :
  _process w = Some p ->
  os_read block_size w =
    (Ret (fst (pipe_read block_size (stdout p))),
     with_stdout (snd (pipe_read block_size (stdout p))) p w).
Proof.
  intros Hp. unfold os_read. rewrite Hp.
  now destruct (pipe_read block_size (stdout p)).
Qed.

(** ** The loop, one iteration at a time *)

Lemma read_loop_stop fuel output w :
  endswith output sentinel = true -> read_loop fuel output w = (Ret output, w).
Proof. intros H. destruct fuel; simpl; now rewrite H. Qed.

Lemma read_loop_exhausted output w :
  endswith output sentinel = false -> read_loop 0 output w = (Diverge, w).
Proof. intros H. simpl. now rewrite H. Qed.

Lemma read_loop_step fuel output w p :
  endswith output sentinel = false -> _process w = Some p ->
  read_loop (S fuel) output w =
    read_loop fuel (output ++ fst (pipe_read block_size (stdout p)))
      (with_stdout (snd (pipe_read block_size (stdout p))) p w).
Proof.
  intros H Hp. simpl. rewrite H.
  cbv [mbind M_bind]. now rewrite (os_read_running w p Hp).
Qed.

Lemma accumulate_step k output pipe :
  accumulate (S k) output pipe =
    accumulate k (output ++ fst (pipe_read block_size pipe))
      (snd (pipe_read block_size pipe)).
Proof. simpl. now destruct (pipe_read block_size pipe). Qed.

Lemma stops_at_zero output pipe :
  stops_at 0 output pipe <-> endswith output sentinel = true.
Proof.
  unfold stops_at. simpl. split; [now intros [H _] | intros H; split; [exact H | lia]].
Qed.

Lemma stops_at_succ k output pipe :
  stops_at (S k) output pipe <->
  endswith output sentinel = false /\
  stops_at k (output ++ fst (pipe_read block_size pipe))
    (snd (pipe_read block_size pipe)).
Proof.
  unfold stops_at. rewrite accumulate_step. split.
  - intros [Hend Hbefore]. split; [apply (Hbefore 0); lia |].
    split; [exact Hend |]. intros j Hj.
    rewrite <- accumulate_step. apply Hbefore. lia.
  - intros [H0 [Hend Hbefore]]. split; [exact Hend |].
    intros [| j] Hj; [exact H0 |].
    rewrite accumulate_step. apply Hbefore. lia.
Qed.

Lemma read_loop_stops fuel : forall k output w p,
  _process w = Some p -> k <= fuel -> stops_at k output (stdout p) ->
  read_loop fuel output w =
    (Ret (fst (accumulate k output (stdout p))),
     with_stdout (snd (accumulate k output (stdout p))) p w).
Proof.
  induction fuel as [| fuel IH]; intros k output w p Hp Hk Hstop.
  - assert (k = 0) as -> by lia. apply stops_at_zero in Hstop.
    simpl accumulate. simpl fst. simpl snd.
    rewrite (with_stdout_same w p Hp). now apply read_loop_stop.
  - destruct k as [| k].
    + apply stops_at_zero in Hstop. simpl accumulate. simpl fst. simpl snd.
      rewrite (with_stdout_same w p Hp). now apply read_loop_stop.
    + apply stops_at_succ in Hstop. destruct Hstop as [H0 Hstop].
      rewrite (read_loop_step fuel output w p H0 Hp), accumulate_step.
      set (r := pipe_read block_size (stdout p)) in *.
      rewrite (IH k (output ++ fst r) (with_stdout (snd r) p w)
                  (mkPopen (pid p) (args p) (snd r)));
        [reflexivity | reflexivity | lia | exact Hstop].
Qed.

Lemma read_loop_diverges fuel : forall output w p,
  _process w = Some p ->
  (forall k, k <= fuel -> endswith (fst (accumulate k output (stdout p))) sentinel = false) ->
  fst (read_loop fuel output w) = Diverge.
Proof.
  induction fuel as [| fuel IH]; intros output w p Hp Hnever.
  - rewrite read_loop_exhausted; [reflexivity | apply (Hnever 0); lia].
  - rewrite (read_loop_step fuel output w p); [| apply (Hnever 0); lia | exact Hp].
    apply (IH _ _ (mkPopen (pid p) (args p)
                     (snd (pipe_read block_size (stdout p)))));
      [reflexivity |].
    intros k Hk. simpl stdout. rewrite <- accumulate_step. apply Hnever. lia.
Qed.

(** Within any bound, either some read is the first to complete the sentinel
    or none does. *)
Lemma stops_or_never fuel output pipe :
  (exists k, k <= fuel /\ stops_at k output pipe) \/
  (forall k, k <= fuel -> endswith (fst (accumulate k output pipe)) sentinel = false).
Proof.
  induction fuel as [| fuel IH].
  - destruct (endswith output sentinel) eqn:H0.
    + left. exists 0. split; [lia | now apply stops_at_zero].
    + right. intros k Hk. assert (k = 0) as -> by lia. exact H0.
  - destruct IH as [(k & Hk & Hstop) | Hnever].
    + left. exists k. split; [lia | exact Hstop].
    + destruct (endswith (fst (accumulate (S fuel) output pipe)) sentinel) eqn:HS.
      * left. exists (S fuel). split; [lia |]. split; [exact HS |].
        intros j Hj. apply Hnever. lia.
      * right. intros k Hk. destruct (decide (k = S fuel)) as [-> | Hne];
          [exact HS | apply Hnever; lia].
Qed.

(** ** [execute] on a running instance *)

Lemma execute_running fuel params w p :
  running w = true -> _process w = Some p ->
  execute fuel params w =
    match read_loop fuel [] (batch_sent params p w) with
    | (Ret output, w') => (Ret (slice_to (- Z.of_nat (length sentinel)) output), w')
    | (Raise e, w') => (Raise e, w')
    | (Diverge, w') => (Diverge, w')
    end.
Proof.
  intros Hr Hp. unfold execute.
  repeat (progress (rewrite ?Hr, ?Hp; run_M)).
  reflexivity.
Qed.

Lemma read_loop_through fuel : forall cs output w p later total,
  _process w = Some p ->
  stdout p = cs ++ later ->
  Forall (fun c : bytes => c <> []) cs ->
  total = output ++ concat cs ->
  endswith total sentinel = true ->
  (forall pre suf, total = pre ++ sentinel ++ suf -> suf = []) ->
  length (concat cs) <= fuel ->
  read_loop fuel output w = (Ret total, with_stdout later p w).
Proof.
  induction fuel as [| fuel IH]; intros cs output w p later total Hp Hout Hne Htot Hend Honly Hfuel.
  - destruct cs as [| c cs].
    + simpl in Htot, Hout. rewrite app_nil_r in Htot. subst total later.
      rewrite (with_stdout_same w p Hp). now apply read_loop_stop.
    + exfalso. inversion Hne as [| c' cs' Hc _]; subst.
      simpl in Hfuel. rewrite length_app in Hfuel.
      destruct c; [congruence | simpl in Hfuel; lia].
  - destruct cs as [| c cs].
    + simpl in Htot, Hout. rewrite app_nil_r in Htot. subst total later.
      rewrite (with_stdout_same w p Hp). now apply read_loop_stop.
    + inversion Hne as [| c' cs' Hc Hne']; subst c' cs'.
      assert (endswith output sentinel = false) as H0.
      { destruct (endswith output sentinel) eqn:E; [| reflexivity].
        apply endswith_true in E as [pre ->].
        specialize (Honly pre (concat (c :: cs))).
        rewrite Htot, <- app_assoc in Honly. specialize (Honly eq_refl).
        simpl in Honly. apply app_eq_nil in Honly as [-> _]. congruence. }
      rewrite (read_loop_step fuel output w p H0 Hp), Hout.
      simpl in Hfuel. rewrite length_app in Hfuel.
      assert (0 < length c) by (destruct c; [congruence | simpl; lia]).
      simpl. destruct (Nat.leb_spec (length c) block_size) as [Hle | Hgt]; simpl.
      * refine (IH cs (output ++ c) (with_stdout (cs ++ later) p w)
                  (mkPopen (pid p) (args p) (cs ++ later)) later total
                  _ _ _ _ _ _ _);
          try reflexivity; try assumption.
        -- rewrite Htot. simpl. now rewrite app_assoc.
        -- lia.
      * refine (IH (drop block_size c :: cs) (output ++ take block_size c)
                  (with_stdout (drop block_size c :: cs ++ later) p w)
                  (mkPopen (pid p) (args p) ((drop block_size c :: cs) ++ later))
                  later total _ _ _ _ _ _ _);
          try reflexivity; try assumption.
        -- constructor; [| exact Hne'].
           intros Hnil. apply (f_equal length) in Hnil.
           rewrite length_drop in Hnil. simpl in Hnil. lia.
        -- rewrite Htot. simpl. rewrite <- !app_assoc. f_equal.
           rewrite (app_assoc (take _ _)). now rewrite take_drop.
        -- simpl. rewrite length_app, length_drop. unfold block_size in *. lia.
Qed.

Lemma execute_diverges fuel params w p :
  running w = true -> _process w = Some p ->
  (forall k, k <= fuel ->
     endswith (fst (accumulate k [] (stdout p))) sentinel = false) ->
  fst (execute fuel params w) = Diverge.
Proof.
  intros Hr Hp Hnever. rewrite (execute_running fuel params w p Hr Hp).
  assert (_process (batch_sent params p w) = Some p) as Hp' by exact Hp.
  pose proof (read_loop_diverges fuel [] _ p Hp' Hnever) as Hd.
  destruct (read_loop fuel [] (batch_sent params p w)) as [[a | e |] w'];
    simpl in Hd; try discriminate. reflexivity.
Qed.

Lemma first_only_at_end body :
  before_first sentinel (body ++ sentinel) = Some body ->
  forall pre suf, body ++ sentinel = pre ++ sentinel ++ suf -> suf = [].
Proof.
  intros Hfirst pre suf Heq.
  pose proof (before_first_least _ _ _ Hfirst pre suf Heq) as Hle.
  apply (f_equal length) in Heq. rewrite !length_app in Heq.
  destruct suf; [reflexivity | simpl in Heq; lia].
Qed.

Lemma execute_through fuel params w p cs later body :
  running w = true -> _process w = Some p ->
  stdout p = cs ++ later ->
  Forall (fun c : bytes => c <> []) cs ->
  concat cs = body ++ sentinel ->
  (forall pre suf, body ++ sentinel = pre ++ sentinel ++ suf -> suf = []) ->
  length (concat cs) <= fuel ->
  execute fuel params w =
    (Ret body, with_stdout later p (batch_sent params p w)).
Proof.
  intros Hr Hp Hout Hne Hcat Honly Hfuel.
  rewrite (execute_running fuel params w p Hr Hp).
  rewrite (read_loop_through fuel cs [] (batch_sent params p w) p later
             (body ++ sentinel)); try assumption; try reflexivity.
  - now rewrite (slice_to_strips body sentinel sentinel_nonempty).
  - simpl. now rewrite Hcat.
  - apply endswith_app.
Qed.

(** C2: on a running instance the loop of [execute] stops at the first read
    after which the accumulated buffer ends with the sentinel, and at no
    other: [execute] then returns that buffer without its last
    sentinel-length bytes, and while no buffer ends with the sentinel it does
    not return, whatever the buffers contain before their end. *)
Theorem execute_exact_suffix (fuel : nat) (params : list bytes) (w : World) (p : Popen) :
  running w = true -> _process w = Some p ->
  (forall k, k <= fuel -> stops_at k [] (stdout p) ->
     exists r,
       fst (accumulate k [] (stdout p)) = r ++ sentinel /\
       execute fuel params w =
         (Ret r, with_stdout (snd (accumulate k [] (stdout p))) p
                   (batch_sent params p w))) /\
  ((forall k, k <= fuel ->
      endswith (fst (accumulate k [] (stdout p))) sentinel = false) ->
   fst (execute fuel params w) = Diverge) /\
  (forall r w', execute fuel params w = (Ret r, w') ->
     exists k, k <= fuel /\ stops_at k [] (stdout p) /\
       fst (accumulate k [] (stdout p)) = r ++ sentinel).
Proof.
  intros Hr Hp.
  assert (_process (batch_sent params p w) = Some p) as Hp' by exact Hp.
  assert (forall k, k <= fuel -> stops_at k [] (stdout p) ->
     exists r,
       fst (accumulate k [] (stdout p)) = r ++ sentinel /\
       execute fuel params w =
         (Ret r, with_stdout (snd (accumulate k [] (stdout p))) p
                   (batch_sent params p w))) as Hstops.
  { intros k Hk Hstop.
    destruct (proj1 (endswith_true _ _) (proj1 Hstop)) as [r Hr'].
    exists r. split; [exact Hr' |].
    rewrite (execute_running fuel params w p Hr Hp).
    rewrite (read_loop_stops fuel k [] _ p Hp' Hk Hstop).
    rewrite Hr'. now rewrite (slice_to_strips r sentinel sentinel_nonempty). }
  pose proof (execute_diverges fuel params w p Hr Hp) as Hnever.
  split; [exact Hstops |]. split; [exact Hnever |].
  intros r w' Hex.
  destruct (stops_or_never fuel [] (stdout p)) as [(k & Hk & Hstop) | Hn].
  - exists k. split; [exact Hk |]. split; [exact Hstop |].
    destruct (Hstops k Hk Hstop) as (r' & Hacc & Hex').
    rewrite Hex in Hex'. injection Hex' as -> _. exact Hacc.
  - apply Hnever in Hn. rewrite Hex in Hn. discriminate.
Qed.

(** C1, amended: when the child's pipe holds the response to the batch, in
    pieces none of which is empty, followed by whatever arrives later, and the
    sentinel first occurs in that response at its very end, [execute] returns
    the bytes before the sentinel, all of them and nothing else, and leaves
    on the pipe what arrives later. *)
Theorem execute_returns_response
    (fuel : nat) (params : list bytes) (w : World) (p : Popen)
    (cs later : list bytes) (body : bytes) :
  running w = true -> _process w = Some p ->
  stdout p = cs ++ later ->
  Forall (fun c : bytes => c <> []) cs ->
  concat cs = body ++ sentinel ->
  before_first sentinel (concat cs) = Some body ->
  length (concat cs) <= fuel ->
  execute fuel params w =
    (Ret body, with_stdout later p (batch_sent params p w)).
Proof.
  intros Hr Hp Hout Hne Hcat Hfirst Hfuel.
  rewrite Hcat in Hfirst.
  apply (execute_through fuel params w p cs later body); try assumption.
  exact (first_only_at_end body Hfirst).
Qed.

(** C1 as stated fails: the tool's answer [a{ready}\nb{ready}\n] arrives in one
    read; the bytes before the first sentinel are [a], but [execute] returns
    [a{ready}\nb]. *)
Lemma execute_keeps_inner_sentinel :
  running echoing_world = true /\
  _process echoing_world = Some echoing_process /\
  before_first sentinel (concat (stdout echoing_process)) = Some (B "a") /\
  fst (execute 4 [B "-Comment"; B "-b"; B "a.jpg"] echoing_world) =
    Ret (B "a{ready}" ++ [nl] ++ B "b").
Proof. repeat split. Qed.

(** * The query helpers *)

Section QueryFacts.

Variable json_loads : bytes -> option pyval.

Lemma get_metadata_batch_unfold fuel params w :
  get_metadata_batch json_loads fuel params w =
    match execute fuel ([B "-G"; B "-j"; B "-n"] ++ iterate params) w with
    | (Ret text, w') =>
        (match json_loads text with Some v => Ret v | None => Raise not_json end, w')
    | (Raise e, w') => (Raise e, w')
    | (Diverge, w') => (Diverge, w')
    end.
Proof.
  unfold get_metadata_batch, loads. cbv [mbind M_bind].
  destruct (execute fuel _ w) as [[text | e |] w']; try reflexivity.
  now destruct (json_loads text).
Qed.

Lemma get_tags_batch_str_tags fuel s filenames w :
  get_tags_batch json_loads fuel (AStr s) filenames w =
    (Raise (TypeError (B "The argument 'tags' must be an iterable of strings")), w).
Proof. reflexivity. Qed.

Lemma get_tags_batch_str_filenames fuel tags s w :
  get_tags_batch json_loads fuel (AIter tags) (AStr s) w =
    (Raise (TypeError (B "The argument 'filenames' must be an iterable of strings")), w).
Proof. reflexivity. Qed.

Lemma accumulate_empty_pipe k : accumulate k [] [] = ([], []).
Proof. induction k as [| k IH]; [reflexivity | simpl; exact IH]. Qed.

Lemma get_metadata_batch_silent fuel params w p :
  running w = true -> _process w = Some p -> stdout p = [] ->
  fst (get_metadata_batch json_loads fuel params w) = Diverge.
Proof.
  intros Hr Hp Hout. rewrite get_metadata_batch_unfold.
  assert (forall k, k <= fuel ->
     endswith (fst (accumulate k [] (stdout p))) sentinel = false) as Hn
    by (intros k _; rewrite Hout, accumulate_empty_pipe; reflexivity).
  pose proof (execute_diverges fuel
    ([B "-G"; B "-j"; B "-n"] ++ iterate params) w p Hr Hp Hn) as Hd.
  destruct (execute fuel _ w) as [[text | e |] w']; simpl in Hd;
    try discriminate. reflexivity.
Qed.

Lemma tag_loop_cons d rest result w :
  tag_loop (d :: rest) result w =
    match method_pop d SourceFile w with
    | (Ret d', w') => tag_loop rest (result ++ [next_itervalues d']) w'
    | (Raise e, w') => (Raise e, w')
    | (Diverge, w') => (Diverge, w')
    end.
Proof. reflexivity. Qed.

Lemma method_pop_dict items key w :
  method_pop (PDict items) key w =
    match dict_lookup key items with
    | Some _ => (Ret (dict_remove key items), w)
    | None => (Raise (KeyError key), w)
    end.
Proof. unfold method_pop. now destruct (dict_lookup key items). Qed.

Lemma tag_loop_records (records : list dict) : forall result w,
  Forall (fun d => dict_lookup SourceFile d <> None) records ->
  tag_loop (map PDict records) result w =
    (Ret (result ++ map tag_value records), w).
Proof.
  induction records as [| d records IH]; intros result w Hall.
  - simpl. now rewrite app_nil_r.
  - inversion Hall as [| d' l' Hd Hrest]; subst d' l'.
    change (map PDict (d :: records)) with (PDict d :: map PDict records).
    rewrite tag_loop_cons, method_pop_dict.
    destruct (dict_lookup SourceFile d) eqn:Hl; [| congruence].
    rewrite (IH _ w Hrest). simpl. now rewrite <- app_assoc.
Qed.

Lemma tag_loop_key_error (d : dict) rest result w :
  dict_lookup SourceFile d = None ->
  tag_loop (PDict d :: rest) result w = (Raise (KeyError SourceFile), w).
Proof.
  intros Hmissing. rewrite tag_loop_cons, method_pop_dict.
  now rewrite Hmissing.
Qed.

Lemma tag_value_none (d : dict) :
  (forall kv, In kv d -> fst kv = SourceFile) -> tag_value d = PNone.
Proof.
  intros Hall. unfold tag_value, dict_remove.
  induction d as [| [k v] d IH]; [reflexivity |].
  simpl. rewrite bool_decide_eq_true_2 by (apply (Hall (k, v)); now left).
  simpl. apply IH. intros kv Hin. apply Hall. now right.
Qed.

Lemma tag_value_some (d : dict) :
  (exists kv, In kv d /\ fst kv <> SourceFile) ->
  exists k, k <> SourceFile /\ In (k, tag_value d) d.
Proof.
  unfold tag_value, dict_remove.
  induction d as [| [k v] d IH]; intros (kv & Hin & Hkv).
  - destruct Hin.
  - simpl. case_bool_decide as Hk; simpl.
    + destruct Hin as [<- | Hin]; [simpl in Hkv; congruence |].
      destruct IH as (k' & Hk' & Hin'); [now exists kv |].
      exists k'. split; [exact Hk' | now right].
    + exists k. split; [exact Hk | now left].
Qed.

End QueryFacts.

(** C5: whenever [tags] or [filenames] is a string, [get_tags_batch] raises
    [TypeError] and the world, the child's input included, is the one from
    before the call; so do [get_tags] on a string of tags and [get_tag_batch]
    on a string of file names. *)
Theorem string_arguments_rejected
    (json_loads : bytes -> option pyval) (fuel : nat) (w : World) :
  (forall tags filenames,
     isinstance_basestring tags = true \/ isinstance_basestring filenames = true ->
     exists msg,
       get_tags_batch json_loads fuel tags filenames w = (Raise (TypeError msg), w)) /\
  (forall s filename,
     exists msg,
       get_tags json_loads fuel (AStr s) filename w = (Raise (TypeError msg), w)) /\
  (forall tag s,
     exists msg,
       get_tag_batch json_loads fuel tag (AStr s) w = (Raise (TypeError msg), w)).
Proof.
  split; [| split].
  - intros [s | tags] filenames Hstr.
    + eexists. apply get_tags_batch_str_tags.
    + destruct filenames as [s' | filenames].
      * eexists. apply get_tags_batch_str_filenames.
      * destruct Hstr as [H | H]; discriminate H.
  - intros s filename. eexists. unfold get_tags. cbv [mbind M_bind].
    now rewrite get_tags_batch_str_tags.
  - intros tag s. eexists. unfold get_tag_batch. cbv [mbind M_bind].
    now rewrite get_tags_batch_str_filenames.
Qed.

(** C4, amended: [get_metadata_batch] on no file name sends the batch
    [-G], [-j], [-n], [-execute] and hands the tool's response to the parser:
    it returns what the parser decodes from it (the empty sequence when that is
    what the response decodes to), raises the parser's error when the response
    is not a document, and does not return when the tool prints nothing. *)
Theorem get_metadata_batch_no_files
    (json_loads : bytes -> option pyval) (fuel : nat) (w : World) (p : Popen) :
  running w = true -> _process w = Some p ->
  (forall cs later body,
     stdout p = cs ++ later ->
     Forall (fun c : bytes => c <> []) cs ->
     concat cs = body ++ sentinel ->
     before_first sentinel (concat cs) = Some body ->
     length (concat cs) <= fuel ->
     get_metadata_batch json_loads fuel (AIter []) w =
       (match json_loads body with Some v => Ret v | None => Raise not_json end,
        with_stdout later p (batch_sent [B "-G"; B "-j"; B "-n"] p w))) /\
  (stdout p = [] ->
     fst (get_metadata_batch json_loads fuel (AIter []) w) = Diverge).
Proof.
  intros Hr Hp. split.
  - intros cs later body Hout Hne Hcat Hfirst Hfuel.
    rewrite get_metadata_batch_unfold. simpl iterate. rewrite app_nil_r.
    rewrite Hcat in Hfirst.
    now rewrite (execute_through fuel _ w p cs later body
                   Hr Hp Hout Hne Hcat (first_only_at_end body Hfirst) Hfuel).
  - apply (get_metadata_batch_silent json_loads fuel (AIter []) w p Hr Hp).
Qed.

(** C4 as stated fails: on a running instance whose tool prints only the
    sentinel, every parser that rejects the empty text makes the call raise;
    and when the tool prints nothing the call does not return, even with a
    parser that decodes every text to the empty sequence. *)
Lemma empty_batch_can_raise_or_hang :
  running (started bare_tool) = true /\
  (forall json_loads, json_loads [] = None ->
     fst (get_metadata_batch json_loads 4 (AIter []) (started bare_tool)) =
       Raise not_json) /\
  running (started silent_tool) = true /\
  ~ (exists fuel,
       fst (get_metadata_batch (fun _ => Some (PList [])) fuel (AIter [])
              (started silent_tool)) = Ret (PList [])).
Proof.
  split; [reflexivity |]. split; [| split; [reflexivity |]].
  - intros json_loads Hempty.
    rewrite get_metadata_batch_unfold.
    change (execute 4 _ (started bare_tool)) with
      (Ret (@nil ascii),
       with_stdout [] (process_of bare_tool)
         (batch_sent [B "-G"; B "-j"; B "-n"] (process_of bare_tool)
            (started bare_tool))).
    simpl. now rewrite Hempty.
  - intros [fuel Hret].
    rewrite (get_metadata_batch_silent _ fuel (AIter []) (started silent_tool)
               (process_of silent_tool)) in Hret; try reflexivity.
    discriminate.
Qed.

(** C10: when the parsed response is a list of records that all carry the
    reserved [SourceFile] field, [get_tag_batch] returns one value per record,
    in the order of the records: [None] for a record with no other field, and
    otherwise the value of a field of the record other than [SourceFile]. *)
Theorem get_tag_batch_values
    (json_loads : bytes -> option pyval) (fuel : nat) (tag : bytes)
    (filenames : pyarg) (w w' : World) (records : list dict) :
  get_tags_batch json_loads fuel (AIter [tag]) filenames w =
    (Ret (PList (map PDict records)), w') ->
  Forall (fun d => dict_lookup SourceFile d <> None) records ->
  exists values,
    get_tag_batch json_loads fuel tag filenames w = (Ret values, w') /\
    values = map tag_value records /\
    length values = length records /\
    Forall2 (fun d v =>
      ((forall kv, In kv d -> fst kv = SourceFile) -> v = PNone) /\
      ((exists kv, In kv d /\ fst kv <> SourceFile) ->
       exists k, k <> SourceFile /\ In (k, v) d)) records values.
Proof.
  intros Hdata Hall. exists (map tag_value records).
  split; [| split; [reflexivity | split; [now rewrite length_map |]]].
  - unfold get_tag_batch. cbv [mbind M_bind]. rewrite Hdata.
    simpl py_iter. cbv [mret M_ret].
    now rewrite (tag_loop_records records [] w' Hall).
  - clear. induction records as [| d records IH]; simpl; constructor.
    + split; [apply tag_value_none | apply tag_value_some].
    + exact IH.
Qed.

(** * Cleanup on scope exit *)

Lemma keeps_bind {A B} (m : M A) (f : A -> M B) :
  keeps_consistent m -> (forall a, keeps_consistent (f a)) ->
  keeps_consistent (m ≫= f).
Proof.
  intros Hm Hf w Hw. cbv [mbind M_bind].
  specialize (Hm w Hw). destruct (m w) as [[a | e |] w1]; simpl in *;
    [now apply Hf | exact Hm | exact Hm].
Qed.

Lemma keeps_pure {A} (m : M A) :
  (forall w, snd (m w) = w) -> keeps_consistent m.
Proof. intros H w Hw. now rewrite H. Qed.

Lemma keeps_emit e : keeps_consistent (modify (emit e)).
Proof. intros w Hw. exact Hw. Qed.

Lemma keeps_get_process : keeps_consistent get_process.
Proof. apply keeps_pure. intros w. unfold get_process. now destruct (_process w). Qed.

Lemma keeps_stdin_write data : keeps_consistent (stdin_write data).
Proof.
  apply keeps_bind; [apply keeps_get_process | intros p; apply keeps_emit].
Qed.

Lemma keeps_stdin_flush : keeps_consistent stdin_flush.
Proof.
  apply keeps_bind; [apply keeps_get_process | intros p; apply keeps_emit].
Qed.

Lemma consistent_with_stdout pipe p w :
  consistent w -> _process w = Some p -> consistent (with_stdout pipe p w).
Proof.
  unfold consistent. simpl. intros Hw Hp. destruct (running w).
  - destruct Hw as (q & Hq & Hc). rewrite Hp in Hq. injection Hq as <-.
    eexists. split; [reflexivity | exact Hc].
  - destruct Hw as [Hnone _]. congruence.
Qed.

Lemma keeps_os_read n : keeps_consistent (os_read n).
Proof.
  intros w Hw. unfold os_read. destruct (_process w) as [p |] eqn:Hp; [| exact Hw].
  destruct (pipe_read n (stdout p)) as [chunk rest]. simpl.
  exact (consistent_with_stdout rest p w Hw Hp).
Qed.

Lemma keeps_read_loop fuel : forall output, keeps_consistent (read_loop fuel output).
Proof.
  induction fuel as [| fuel IH]; intros output; simpl;
    destruct (endswith output sentinel); try (apply keeps_pure; reflexivity).
  apply keeps_bind; [apply keeps_os_read | intros chunk; apply IH].
Qed.

Lemma keeps_execute fuel params : keeps_consistent (execute fuel params).
Proof.
  unfold execute. apply keeps_bind; [apply keeps_pure; reflexivity |].
  intros r. destruct (negb r); [apply keeps_pure; reflexivity |].
  apply keeps_bind; [apply keeps_stdin_write | intros _].
  apply keeps_bind; [apply keeps_stdin_flush | intros _].
  apply keeps_bind; [apply keeps_get_process | intros _].
  apply keeps_bind; [apply keeps_read_loop | intros output].
  apply keeps_pure. reflexivity.
Qed.

Lemma start_returns w : fst (start w) = Ret tt.
Proof. unfold start. run_M. now destruct (running w). Qed.

Lemma keeps_start : keeps_consistent start.
Proof.
  intros w Hw. destruct (running w) eqn:Hr.
  - rewrite (start_running w Hr). exact Hw.
  - unfold consistent in Hw. rewrite Hr in Hw. destruct Hw as [Hp Hc].
    unfold start. run_M. rewrite Hr. run_M.
    unfold consistent. simpl. rewrite Hc.
    eexists. split; reflexivity.
Qed.

Lemma terminate_consistent w :
  consistent w -> exists w', terminate w = (Ret tt, w') /\ stopped w'.
Proof.
  unfold consistent, stopped. intros Hw. destruct (running w) eqn:Hr.
  - destruct Hw as (p & Hp & Hc).
    eexists. split; [apply (terminate_running w p Hr Hp) |].
    simpl. repeat split. rewrite Hc.
    rewrite filter_cons_False; [reflexivity | now intros H; apply H].
  - destruct Hw as [Hp Hc]. exists w.
    split; [apply (terminate_not_running w Hr) | now repeat split].
Qed.

Lemma stopped_consistent w : stopped w -> consistent w.
Proof. unfold stopped, consistent. intros (-> & Hp & Hc). now split. Qed.

Lemma keeps_terminate : keeps_consistent terminate.
Proof.
  intros w Hw. destruct (terminate_consistent w Hw) as (w' & -> & Hs).
  now apply stopped_consistent.
Qed.

Section Scope.

Variable json_loads : bytes -> option pyval.

Lemma keeps_loads text : keeps_consistent (loads json_loads text).
Proof. apply keeps_pure. intros w. unfold loads. now destruct (json_loads text). Qed.

Lemma keeps_getitem0 v : keeps_consistent (getitem0 v).
Proof.
  apply keeps_pure. intros w.
  destruct v as [| | | | [| c s] | [| x l] |]; reflexivity.
Qed.

Lemma keeps_get_metadata_batch fuel params :
  keeps_consistent (get_metadata_batch json_loads fuel params).
Proof. apply keeps_bind; [apply keeps_execute | apply keeps_loads]. Qed.

Lemma keeps_get_tags_batch fuel tags filenames :
  keeps_consistent (get_tags_batch json_loads fuel tags filenames).
Proof.
  unfold get_tags_batch.
  destruct (isinstance_basestring tags); [apply keeps_pure; reflexivity |].
  destruct (isinstance_basestring filenames); [apply keeps_pure; reflexivity |].
  apply keeps_get_metadata_batch.
Qed.

Lemma keeps_tag_loop data : forall result, keeps_consistent (tag_loop data result).
Proof.
  induction data as [| d data IH]; intros result; [apply keeps_pure; reflexivity |].
  simpl. apply keeps_bind; [| intros d'; apply IH].
  apply keeps_pure. intros w.
  destruct d as [| | | | | | items]; try reflexivity.
  rewrite method_pop_dict. now destruct (dict_lookup _ items).
Qed.

Lemma keeps_get_tag_batch fuel tag filenames :
  keeps_consistent (get_tag_batch json_loads fuel tag filenames).
Proof.
  apply keeps_bind; [apply keeps_get_tags_batch | intros data].
  apply keeps_bind; [| intros items; apply keeps_tag_loop].
  apply keeps_pure. intros w. now destruct data.
Qed.

Lemma keeps_run_call fuel c : keeps_consistent (run_call json_loads fuel c).
Proof.
  destruct c; simpl;
    try apply keeps_start; try apply keeps_terminate;
    (apply keeps_bind; [| intros ?; apply keeps_pure; reflexivity]).
  - apply keeps_execute.
  - apply keeps_get_metadata_batch.
  - apply keeps_bind; [apply keeps_get_metadata_batch | apply keeps_getitem0].
  - apply keeps_get_tags_batch.
  - apply keeps_bind; [apply keeps_get_tags_batch | apply keeps_getitem0].
  - apply keeps_get_tag_batch.
  - apply keeps_bind; [apply keeps_get_tag_batch | intros r].
    apply keeps_pure. intros w. now destruct r.
Qed.

Lemma keeps_run_calls fuel body : keeps_consistent (run_calls json_loads fuel body).
Proof.
  induction body as [| c body IH]; [apply keeps_pure; reflexivity |].
  simpl. apply keeps_bind; [apply keeps_run_call | intros _; exact IH].
Qed.

End Scope.

Lemma with_statement_stops {A} (body : M A) w r w' :
  keeps_consistent body -> consistent w ->
  with_statement body w = (r, w') ->
  r = Diverge \/ stopped w'.
Proof.
  intros Hbody Hw. unfold with_statement, __enter__, __exit__.
  pose proof (start_returns w) as Hs. pose proof (keeps_start w Hw) as Hw1.
  destruct (start w) as [o w1]. simpl in Hs, Hw1. subst o.
  pose proof (Hbody w1 Hw1) as Hw2.
  destruct (body w1) as [[a | e |] w2]; simpl in Hw2.
  - destruct (terminate_consistent w2 Hw2) as (w3 & -> & Hstop).
    intros [= <- <-]. now right.
  - destruct (terminate_consistent w2 Hw2) as (w3 & -> & Hstop).
    intros [= <- <-]. now right.
  - intros [= <- <-]. now left.
Qed.

(** C9: [__exit__], whatever exception it is told about, and [__del__] are
    calls of [terminate]; hence a [with] statement over a well-formed instance
    whose body is any sequence of method calls, if control leaves it at all
    (normally or with an exception), leaves the instance stopped, with no
    child process alive. *)
Theorem exit_and_del_terminate
    (json_loads : bytes -> option pyval) (fuel : nat) (body : list call)
    (w : World) :
  (forall exc_type exc_val exc_tb,
     __exit__ exc_type exc_val exc_tb w = terminate w) /\
  __del__ w = terminate w /\
  (consistent w ->
   forall r w',
     with_statement (run_calls json_loads fuel body) w = (r, w') ->
     r = Diverge \/
     (running w' = false /\ _process w' = None /\ children w' = [])).
Proof.
  split; [reflexivity |]. split; [reflexivity |].
  intros Hw r w' Hwith.
  exact (with_statement_stops _ w r w' (keeps_run_calls json_loads fuel body) Hw Hwith).
Qed.

(** * The theorems at concrete instances *)

Lemma execute_returns_response_witness :
  execute 16 [B "-G"] (started polite_tool) =
    (Ret (B "[]"),
     with_stdout [B "later"] (process_of polite_tool)
       (batch_sent [B "-G"] (process_of polite_tool) (started polite_tool))).
Proof.
  apply (execute_returns_response 16 [B "-G"] (started polite_tool)
           (process_of polite_tool) [B "[]"; B "{rea"; B "dy}" ++ [nl]]
           [B "later"] (B "[]")).
  - reflexivity.
  - reflexivity.
  - reflexivity.
  - repeat constructor; discriminate.
  - reflexivity.
  - reflexivity.
  - simpl. lia.
Defined.

Lemma execute_exact_suffix_witness :
  running echoing_world = true /\
  exists r,
    fst (accumulate 1 [] (stdout echoing_process)) = r ++ sentinel /\
    execute 4 [B "-ver"] echoing_world =
      (Ret r, with_stdout (snd (accumulate 1 [] (stdout echoing_process)))
                echoing_process (batch_sent [B "-ver"] echoing_process echoing_world)).
Proof.
  split; [reflexivity |].
  apply (proj1 (execute_exact_suffix 4 [B "-ver"] echoing_world echoing_process
                  eq_refl eq_refl) 1).
  - lia.
  - split; [reflexivity |].
    intros j Hj. assert (j = 0) as -> by lia. reflexivity.
Defined.

Lemma execute_requires_running_witness :
  running (__init__ None silent_tool) = false /\
  execute 4 [B "-ver"] (__init__ None silent_tool) =
    (Raise not_running, __init__ None silent_tool).
Proof.
  split; [reflexivity |].
  apply (proj1 (execute_requires_running 4 [B "-ver"] (__init__ None silent_tool))).
  reflexivity.
Defined.

Lemma start_when_running_only_warns_witness :
  running echoing_world = true /\
  start echoing_world = (Ret tt, emit (Warn already_running) echoing_world).
Proof.
  split; [reflexivity |].
  apply (proj1 (start_when_running_only_warns echoing_world eq_refl)).
Defined.

Lemma terminate_idempotent_witness :
  running (__init__ None silent_tool) = false /\
  terminate (__init__ None silent_tool) = (Ret tt, __init__ None silent_tool).
Proof.
  split; [reflexivity |].
  apply (proj1 (terminate_idempotent (__init__ None silent_tool))).
  reflexivity.
Defined.

Lemma terminate_sequence_witness :
  running (started polite_tool) = true /\
  exists w',
    terminate (started polite_tool) = (Ret tt, w') /\
    trace w' = trace (started polite_tool) ++
               [Write 0 shutdown_directive; Flush 0; Communicate 0] /\
    _process w' = None /\ running w' = false /\ children w' = [].
Proof.
  split; [reflexivity |].
  destruct (terminate_sequence (started polite_tool) (process_of polite_tool)
              eq_refl eq_refl) as (_ & w' & Hrun & Htrace & Hp & Hr & Hc & _).
  exists w'. repeat split; assumption.
Defined.

Lemma get_metadata_batch_no_files_witness :
  running (started polite_tool) = true /\
  fst (get_metadata_batch loads_empty_array 16 (AIter []) (started polite_tool)) =
    Ret (PList []).
Proof.
  split; [reflexivity |].
  rewrite (proj1 (get_metadata_batch_no_files loads_empty_array 16
                    (started polite_tool) (process_of polite_tool)
                    eq_refl eq_refl)
             [B "[]"; B "{rea"; B "dy}" ++ [nl]] [B "later"] (B "[]")).
  - reflexivity.
  - reflexivity.
  - repeat constructor; discriminate.
  - reflexivity.
  - reflexivity.
  - simpl. lia.
Defined.

Lemma string_arguments_rejected_witness :
  exists msg,
    get_tags_batch loads_empty_array 16 (AStr (B "EXIF:Model"))
      (AIter [B "a.jpg"]) (started polite_tool) =
      (Raise (TypeError msg), started polite_tool).
Proof.
  apply (proj1 (string_arguments_rejected loads_empty_array 16 (started polite_tool))).
  left. reflexivity.
Defined.

Lemma get_tag_batch_values_witness :
  fst (get_tag_batch loads_two_records 16 (B "EXIF:Model")
         (AIter [B "a.jpg"; B "b.jpg"]) (started polite_tool)) =
    Ret [PStr (B "X100"); PNone].
Proof.
  destruct (get_tag_batch_values loads_two_records 16 (B "EXIF:Model")
              (AIter [B "a.jpg"; B "b.jpg"]) (started polite_tool)
              (snd (get_tags_batch loads_two_records 16 (AIter [B "EXIF:Model"])
                      (AIter [B "a.jpg"; B "b.jpg"]) (started polite_tool)))
              two_records)
    as (values & Hrun & Hvalues & _).
  - reflexivity.
  - repeat constructor; discriminate.
  - rewrite Hrun, Hvalues. reflexivity.
Defined.

Lemma exit_and_del_terminate_witness :
  consistent (__init__ None polite_tool) /\
  stopped (snd (with_statement
                  (run_calls loads_empty_array 16
                     [Call_get_metadata_batch (AIter []); Call_get_tags (AStr (B "EXIF:Model")) (B "a.jpg")])
                  (__init__ None polite_tool))).
Proof.
  assert (consistent (__init__ None polite_tool)) as Hw by (split; reflexivity).
  split; [exact Hw |].
  destruct (proj2 (proj2 (exit_and_del_terminate loads_empty_array 16
              [Call_get_metadata_batch (AIter []); Call_get_tags (AStr (B "EXIF:Model")) (B "a.jpg")]
              (__init__ None polite_tool))) Hw _ _ (surjective_pairing _))
    as [Hd | Hs].
  - vm_compute in Hd. discriminate Hd.
  - exact Hs.
Defined.

(** * Further properties of the lifecycle *)

Lemma start_stopped w :
  running w = false ->
  start w =
    (Ret tt,
     mkWorld (self_executable w) true
       (Some (mkPopen (next_pid w) (stay_open_argv (self_executable w))
                (tool_output w (next_pid w))))
       (children w ++ [next_pid w]) (S (next_pid w)) (tool_output w)
       (trace w ++ [Spawn (next_pid w) (stay_open_argv (self_executable w))])).
Proof.
  intros Hr. unfold start. run_M. rewrite Hr. reflexivity.
Qed.

Lemma count_events_app f t1 t2 :
  count_events f (t1 ++ t2) = count_events f t1 + count_events f t2.
Proof. induction t1 as [| e t1 IH]; simpl; [reflexivity | rewrite IH; lia]. Qed.

(** X1: on an instance that is not running [start] launches one child, with
    the command line [executable -stay_open True -@ -], keeps its handle and
    sets the running flag; the constructor's executable, or [exiftool] when
    none was given, is the program launched. *)
Theorem start_launches_stay_open (w : World) :
  running w = false ->
  exists p w',
    start w = (Ret tt, w') /\
    running w' = true /\
    _process w' = Some p /\
    pid p = next_pid w /\
    args p = [self_executable w; B "-stay_open"; B "True"; B "-@"; B "-"] /\
    children w' = children w ++ [pid p] /\
    trace w' = trace w ++ [Spawn (pid p) (args p)] /\
    (forall exe tool, self_executable (__init__ (Some exe) tool) = exe) /\
    (forall tool, self_executable (__init__ None tool) = B "exiftool").
Proof.
  intros Hr. eexists. eexists.
  split; [apply (start_stopped w Hr) |].
  simpl. repeat split; reflexivity.
Qed.

Lemma start_launches_stay_open_witness :
  exists p w',
    start (__init__ (Some (B "/opt/bin/exiftool")) silent_tool) = (Ret tt, w') /\
    _process w' = Some p /\
    args p = stay_open_argv (B "/opt/bin/exiftool") /\
    children w' = [0].
Proof.
  destruct (start_launches_stay_open
              (__init__ (Some (B "/opt/bin/exiftool")) silent_tool) eq_refl)
    as (p & w' & Hs & _ & Hp & Hpid & Hargs & Hc & _).
  exists p, w'. rewrite Hpid in Hc.
  repeat split; assumption.
Defined.

(** X2: [terminate] followed by [start] on a running, well-formed instance
    shuts the old child down and launches a new one: the trace grows by the
    shutdown directive, its flush, the wait, and one spawn, and the only live
    child afterwards is the new one. *)
Theorem restart_replaces_child (w : World) (p : Popen) :
  consistent w -> running w = true -> _process w = Some p ->
  exists w',
    (terminate ≫= fun _ => start) w = (Ret tt, w') /\
    trace w' = trace w ++
      [Write (pid p) shutdown_directive; Flush (pid p); Communicate (pid p);
       Spawn (next_pid w) (stay_open_argv (self_executable w))] /\
    running w' = true /\
    children w' = [next_pid w] /\
    (exists q, _process w' = Some q /\ pid q = next_pid w) /\
    consistent w'.
Proof.
  intros Hw Hr Hp.
  assert (children w = [pid p]) as Hc.
  { unfold consistent in Hw. rewrite Hr in Hw.
    destruct Hw as (q & Hq & Hc). congruence. }
  eexists. split.
  - cbv [mbind M_bind]. rewrite (terminate_running w p Hr Hp).
    rewrite start_stopped by reflexivity. reflexivity.
  - simpl. rewrite Hc.
    rewrite filter_cons_False by (now intros H; apply H).
    repeat split.
    + now rewrite <- app_assoc.
    + eexists. split; reflexivity.
    + unfold consistent. simpl. eexists. split; reflexivity.
Qed.

Lemma restart_replaces_child_witness :
  exists w',
    (terminate ≫= fun _ => start) (started polite_tool) = (Ret tt, w') /\
    running w' = true /\ children w' = [1].
Proof.
  destruct (restart_replaces_child (started polite_tool) (process_of polite_tool))
    as (w' & Hrun & _ & Hr & Hc & _).
  - unfold consistent. simpl. eexists. split; reflexivity.
  - reflexivity.
  - reflexivity.
  - exists w'. repeat split; assumption.
Defined.

(** * Further properties of [execute] *)

Lemma keeps_seq {A B} (P : World -> Prop) (m : M A) (f : A -> M B) :
  keeps P m -> (forall a, keeps P (f a)) -> keeps P (m ≫= f).
Proof.
  intros Hm Hf w Hw. cbv [mbind M_bind].
  specialize (Hm w Hw). destruct (m w) as [[a | e |] w1]; simpl in *;
    [now apply Hf | exact Hm | exact Hm].
Qed.

Lemma keeps_unchanged {A} (P : World -> Prop) (m : M A) :
  (forall w, snd (m w) = w) -> keeps P m.
Proof. intros H w Hw. now rewrite H. Qed.

Section Frame.

(** A property of the world that reading from the child's pipe does not
    disturb. *)
Variable P : World -> Prop.
Hypothesis P_with_stdout :
  forall w p pipe, P w -> _process w = Some p -> P (with_stdout pipe p w).

Lemma os_read_keeps n : keeps P (os_read n).
Proof.
  intros w Hw. unfold os_read. destruct (_process w) as [p |] eqn:Hp; [| exact Hw].
  destruct (pipe_read n (stdout p)) as [chunk rest]. simpl.
  exact (P_with_stdout w p rest Hw Hp).
Qed.

Lemma read_loop_keeps fuel : forall output, keeps P (read_loop fuel output).
Proof.
  induction fuel as [| fuel IH]; intros output; simpl;
    destruct (endswith output sentinel); try (apply keeps_unchanged; reflexivity).
  apply keeps_seq; [apply os_read_keeps | intros chunk; apply IH].
Qed.

(** ... nor writing to the child. *)
Hypothesis P_write : forall w c data, P w -> P (emit (Write c data) w).
Hypothesis P_flush : forall w c, P w -> P (emit (Flush c) w).

Lemma get_process_keeps : keeps P get_process.
Proof.
  apply keeps_unchanged. intros w. unfold get_process. now destruct (_process w).
Qed.

Lemma stdin_write_keeps data : keeps P (stdin_write data).
Proof.
  apply keeps_seq; [apply get_process_keeps |].
  intros p w Hw. apply P_write. exact Hw.
Qed.

Lemma stdin_flush_keeps : keeps P stdin_flush.
Proof.
  apply keeps_seq; [apply get_process_keeps |].
  intros p w Hw. apply P_flush. exact Hw.
Qed.

Lemma execute_keeps fuel params : keeps P (execute fuel params).
Proof.
  unfold execute. apply keeps_seq; [apply keeps_unchanged; reflexivity |].
  intros r. destruct (negb r); [apply keeps_unchanged; reflexivity |].
  apply keeps_seq; [apply stdin_write_keeps | intros _].
  apply keeps_seq; [apply stdin_flush_keeps | intros _].
  apply keeps_seq; [apply get_process_keeps | intros _].
  apply keeps_seq; [apply read_loop_keeps | intros output].
  apply keeps_unchanged. reflexivity.
Qed.

Variable json_loads : bytes -> option pyval.

Lemma get_metadata_batch_keeps fuel params :
  keeps P (get_metadata_batch json_loads fuel params).
Proof.
  apply keeps_seq; [apply execute_keeps | intros text].
  apply keeps_unchanged. intros w. unfold loads. now destruct (json_loads text).
Qed.

Lemma getitem0_keeps v : keeps P (getitem0 v).
Proof.
  apply keeps_unchanged. intros w.
  destruct v as [| | | | [| c s] | [| x l] |]; reflexivity.
Qed.

Lemma get_tags_batch_keeps fuel tags filenames :
  keeps P (get_tags_batch json_loads fuel tags filenames).
Proof.
  unfold get_tags_batch.
  destruct (isinstance_basestring tags); [apply keeps_unchanged; reflexivity |].
  destruct (isinstance_basestring filenames); [apply keeps_unchanged; reflexivity |].
  apply get_metadata_batch_keeps.
Qed.

Lemma tag_loop_unchanged data : forall result w, snd (tag_loop data result w) = w.
Proof.
  induction data as [| d data IH]; intros result w; [reflexivity |].
  rewrite tag_loop_cons.
  destruct d as [| | | | | | items]; try reflexivity.
  rewrite method_pop_dict. destruct (dict_lookup _ items); [apply IH | reflexivity].
Qed.

Lemma get_tag_batch_keeps fuel tag filenames :
  keeps P (get_tag_batch json_loads fuel tag filenames).
Proof.
  apply keeps_seq; [apply get_tags_batch_keeps | intros data].
  apply keeps_seq; [| intros items; apply keeps_unchanged; apply tag_loop_unchanged].
  apply keeps_unchanged. intros w. now destruct data.
Qed.

Lemma run_query_keeps fuel c :
  c <> Call_start -> c <> Call_terminate ->
  keeps P (run_call json_loads fuel c).
Proof.
  intros Hs Ht. destruct c; try congruence; simpl;
    (apply keeps_seq; [| intros ?; apply keeps_unchanged; reflexivity]).
  - apply execute_keeps.
  - apply get_metadata_batch_keeps.
  - apply keeps_seq; [apply get_metadata_batch_keeps | apply getitem0_keeps].
  - apply get_tags_batch_keeps.
  - apply keeps_seq; [apply get_tags_batch_keeps | apply getitem0_keeps].
  - apply get_tag_batch_keeps.
  - apply keeps_seq; [apply get_tag_batch_keeps | intros r].
    apply keeps_unchanged. intros w. now destruct r.
Qed.

End Frame.

Lemma join_cons sep p l :
  l <> [] -> join sep (p :: l) = p ++ sep ++ join sep l.
Proof. destruct l; [congruence | reflexivity]. Qed.

Lemma join_lines params last :
  join [nl] (params ++ [last]) = lines params ++ last.
Proof.
  unfold lines. induction params as [| p params IH]; [reflexivity |].
  change ((p :: params) ++ [last]) with (p :: (params ++ [last])).
  rewrite join_cons by (destruct params; discriminate).
  rewrite IH. simpl. now rewrite <- !app_assoc.
Qed.

Lemma execute_snd_running fuel params w p :
  running w = true -> _process w = Some p ->
  snd (execute fuel params w) = snd (read_loop fuel [] (batch_sent params p w)).
Proof.
  intros Hr Hp. rewrite (execute_running fuel params w p Hr Hp).
  now destruct (read_loop fuel [] (batch_sent params p w)) as [[a | e |] w'].
Qed.

Lemma execute_trace fuel params w p :
  running w = true -> _process w = Some p ->
  trace (snd (execute fuel params w)) =
    trace w ++ [Write (pid p) (batch_text params); Flush (pid p)] /\
  running (snd (execute fuel params w)) = true /\
  children (snd (execute fuel params w)) = children w /\
  next_pid (snd (execute fuel params w)) = next_pid w /\
  exists pipe, _process (snd (execute fuel params w)) =
                 Some (mkPopen (pid p) (args p) pipe).
Proof.
  intros Hr Hp. rewrite (execute_snd_running fuel params w p Hr Hp).
  set (w0 := batch_sent params p w).
  pose (Q := fun w' : World =>
    trace w' = trace w0 /\ running w' = running w0 /\
    children w' = children w0 /\ next_pid w' = next_pid w0 /\
    exists pipe, _process w' = Some (mkPopen (pid p) (args p) pipe)).
  assert (Q (snd (read_loop fuel [] w0))) as HQ.
  { apply (read_loop_keeps Q).
    - intros w1 q pipe (Ht & Hr1 & Hc & Hn & pipe1 & Hp1) Hq.
      unfold Q. simpl. repeat split; try assumption.
      rewrite Hp1 in Hq. injection Hq as <-. simpl. now exists pipe.
    - unfold Q. repeat split. exists (stdout p). subst w0. simpl.
      rewrite Hp. now destruct p. }
  destruct HQ as (Ht & Hr1 & Hc & Hn & Hpipe).
  rewrite Ht, Hr1, Hc, Hn. subst w0. simpl.
  unfold batch_text. rewrite join_lines, <- app_assoc.
  repeat split; assumption.
Qed.

(** X3: on a running instance [execute] writes its batch once, every
    argument on a line of its own followed by the line [-execute], and
    flushes once, whether or not the read loop then returns; it touches
    neither the running flag nor the set of live children. *)
Theorem execute_sends_one_batch
    (fuel : nat) (params : list bytes) (w : World) (p : Popen) :
  running w = true -> _process w = Some p ->
  trace (snd (execute fuel params w)) =
    trace w ++
    [Write (pid p) (concat (map (fun a => a ++ [nl]) params) ++ B "-execute" ++ [nl]);
     Flush (pid p)] /\
  running (snd (execute fuel params w)) = true /\
  children (snd (execute fuel params w)) = children w.
Proof.
  intros Hr Hp.
  destruct (execute_trace fuel params w p Hr Hp) as (Ht & Hr' & Hc & _).
  repeat split; assumption.
Qed.

Lemma execute_sends_one_batch_witness :
  trace (snd (execute 0 [B "-ver"; B "a.jpg"] (started silent_tool))) =
    trace (started silent_tool) ++
    [Write 0 (B "-ver" ++ [nl] ++ B "a.jpg" ++ [nl] ++ B "-execute" ++ [nl]);
     Flush 0].
Proof.
  apply (proj1 (execute_sends_one_batch 0 [B "-ver"; B "a.jpg"]
                  (started silent_tool) (process_of silent_tool)
                  eq_refl eq_refl)).
Defined.

Lemma pipe_read_conserves n pipe :
  fst (pipe_read n pipe) ++ concat (snd (pipe_read n pipe)) = concat pipe.
Proof.
  destruct pipe as [| c rest]; [reflexivity |]. simpl.
  destruct (length c <=? n); simpl; [reflexivity |].
  now rewrite app_assoc, take_drop.
Qed.

Lemma accumulate_conserves k : forall output pipe,
  fst (accumulate k output pipe) ++ concat (snd (accumulate k output pipe)) =
    output ++ concat pipe.
Proof.
  induction k as [| k IH]; intros output pipe; [reflexivity |].
  rewrite accumulate_step, IH, <- app_assoc.
  now rewrite pipe_read_conserves.
Qed.

Lemma execute_returns_inv fuel params w p r w' :
  running w = true -> _process w = Some p ->
  execute fuel params w = (Ret r, w') ->
  exists k, k <= fuel /\ stops_at k [] (stdout p) /\
    fst (accumulate k [] (stdout p)) = r ++ sentinel /\
    w' = with_stdout (snd (accumulate k [] (stdout p))) p (batch_sent params p w).
Proof.
  intros Hr Hp Hex.
  assert (_process (batch_sent params p w) = Some p) as Hp' by exact Hp.
  destruct (stops_or_never fuel [] (stdout p)) as [(k & Hk & Hstop) | Hn].
  - exists k. split; [exact Hk |]. split; [exact Hstop |].
    rewrite (execute_running fuel params w p Hr Hp) in Hex.
    rewrite (read_loop_stops fuel k [] _ p Hp' Hk Hstop) in Hex.
    destruct (proj1 (endswith_true _ _) (proj1 Hstop)) as [r' Hr'].
    rewrite Hr' in Hex.
    rewrite (slice_to_strips r' sentinel sentinel_nonempty) in Hex.
    injection Hex as <- <-. split; [exact Hr' | reflexivity].
  - pose proof (execute_diverges fuel params w p Hr Hp Hn) as Hd.
    rewrite Hex in Hd. discriminate.
Qed.

(** X4: when [execute] returns on a running instance, what the child had
    written is the returned value, followed by the sentinel, followed by what
    is left on the pipe of the same child: no byte is lost, repeated or made
    up. *)
Theorem execute_conserves_bytes
    (fuel : nat) (params : list bytes) (w w' : World) (p : Popen) (r : bytes) :
  running w = true -> _process w = Some p ->
  execute fuel params w = (Ret r, w') ->
  exists p',
    _process w' = Some p' /\ pid p' = pid p /\
    concat (stdout p) = r ++ sentinel ++ concat (stdout p').
Proof.
  intros Hr Hp Hex.
  destruct (execute_returns_inv fuel params w p r w' Hr Hp Hex)
    as (k & _ & _ & Hacc & ->).
  eexists. split; [reflexivity |]. split; [reflexivity |].
  simpl. pose proof (accumulate_conserves k [] (stdout p)) as Hcons.
  rewrite Hacc in Hcons. simpl in Hcons. now rewrite <- app_assoc in Hcons.
Qed.

Lemma execute_conserves_bytes_witness :
  exists p',
    _process (snd (execute 4 [B "-ver"] (started polite_tool))) = Some p' /\
    pid p' = 0 /\
    concat (polite_tool 0) = B "[]" ++ sentinel ++ concat (stdout p').
Proof.
  destruct (execute_conserves_bytes 4 [B "-ver"] (started polite_tool)
              (snd (execute 4 [B "-ver"] (started polite_tool)))
              (process_of polite_tool) (B "[]") eq_refl eq_refl eq_refl)
    as (p' & Hp' & Hpid & Hcat).
  exists p'. split; [exact Hp' |]. split; [exact Hpid |].
  exact Hcat.
Defined.

(** X5: two batches sent one after the other get their own responses, in
    order: when the pipe holds a first response, then a second, each in
    non-empty pieces and each with the sentinel only at its end, the first
    [execute] returns the first body, the second the second, and what arrives
    after both stays on the pipe. *)
Theorem two_batches_in_order
    (fuel : nat) (params1 params2 : list bytes) (w : World) (p : Popen)
    (cs1 cs2 later : list bytes) (body1 body2 : bytes) :
  running w = true -> _process w = Some p ->
  stdout p = cs1 ++ cs2 ++ later ->
  Forall (fun c : bytes => c <> []) cs1 ->
  Forall (fun c : bytes => c <> []) cs2 ->
  concat cs1 = body1 ++ sentinel ->
  concat cs2 = body2 ++ sentinel ->
  before_first sentinel (concat cs1) = Some body1 ->
  before_first sentinel (concat cs2) = Some body2 ->
  length (concat cs1) <= fuel -> length (concat cs2) <= fuel ->
  exists w',
    (r1 ← execute fuel params1; r2 ← execute fuel params2; mret (r1, r2)) w =
      (Ret (body1, body2), w') /\
    _process w' = Some (mkPopen (pid p) (args p) later) /\
    trace w' = trace w ++
      [Write (pid p) (batch_text params1); Flush (pid p);
       Write (pid p) (batch_text params2); Flush (pid p)].
Proof.
  intros Hr Hp Hout Hne1 Hne2 Hcat1 Hcat2 Hf1 Hf2 Hfuel1 Hfuel2.
  rewrite Hcat1 in Hf1. rewrite Hcat2 in Hf2.
  set (w1 := with_stdout (cs2 ++ later) p (batch_sent params1 p w)).
  set (p1 := mkPopen (pid p) (args p) (cs2 ++ later)).
  assert (execute fuel params1 w = (Ret body1, w1)) as H1.
  { apply (execute_through fuel params1 w p cs1 (cs2 ++ later) body1);
      try assumption. exact (first_only_at_end body1 Hf1). }
  assert (execute fuel params2 w1 =
            (Ret body2, with_stdout later p1 (batch_sent params2 p1 w1))) as H2.
  { apply (execute_through fuel params2 w1 p1 cs2 later body2);
      try assumption; try reflexivity. exact (first_only_at_end body2 Hf2). }
  eexists. split.
  - cbv [mbind M_bind mret M_ret]. rewrite H1, H2. reflexivity.
  - split; [reflexivity |]. simpl.
    unfold batch_text. rewrite !join_lines, <- !app_assoc. reflexivity.
Qed.

Lemma two_batches_in_order_witness :
  fst ((r1 ← execute 16 [B "a.jpg"]; r2 ← execute 16 [B "b.jpg"]; mret (r1, r2))
         (started two_answers_tool)) =
    Ret (B "one", B "two").
Proof.
  assert (Forall (fun c : bytes => c <> []) [B "one"; sentinel]) as Hne1
    by (repeat constructor; discriminate).
  assert (Forall (fun c : bytes => c <> []) [B "two" ++ sentinel]) as Hne2
    by (repeat constructor; discriminate).
  assert (length (concat [B "one"; sentinel]) <= 16) as Hl1 by (simpl; lia).
  assert (length (concat [B "two" ++ sentinel]) <= 16) as Hl2 by (simpl; lia).
  destruct (two_batches_in_order 16 [B "a.jpg"] [B "b.jpg"]
              (started two_answers_tool) (process_of two_answers_tool)
              [B "one"; sentinel] [B "two" ++ sentinel] [B "later"]
              (B "one") (B "two")
              eq_refl eq_refl eq_refl Hne1 Hne2 eq_refl eq_refl eq_refl eq_refl
              Hl1 Hl2)
    as (w' & Hrun & _).
  rewrite Hrun. reflexivity.
Defined.

(** * Further properties of the query helpers *)

Lemma read_loop_no_raise fuel : forall output w p e,
  _process w = Some p -> fst (read_loop fuel output w) <> Raise e.
Proof.
  induction fuel as [| fuel IH]; intros output w p e Hp;
    destruct (endswith output sentinel) eqn:Hend.
  - now rewrite read_loop_stop.
  - now rewrite read_loop_exhausted.
  - now rewrite read_loop_stop.
  - rewrite (read_loop_step fuel output w p Hend Hp).
    apply (IH _ _ (mkPopen (pid p) (args p)
                     (snd (pipe_read block_size (stdout p))))).
    reflexivity.
Qed.

Lemma execute_no_raise fuel params w p e :
  running w = true -> _process w = Some p ->
  fst (execute fuel params w) <> Raise e.
Proof.
  intros Hr Hp. rewrite (execute_running fuel params w p Hr Hp).
  assert (_process (batch_sent params p w) = Some p) as Hp' by exact Hp.
  pose proof (read_loop_no_raise fuel [] _ p e Hp') as Hn.
  destruct (read_loop fuel [] (batch_sent params p w)) as [[a | e' |] w1];
    simpl in *; congruence.
Qed.

Lemma get_metadata_batch_snd json_loads fuel params w :
  snd (get_metadata_batch json_loads fuel params w) =
    snd (execute fuel ([B "-G"; B "-j"; B "-n"] ++ iterate params) w).
Proof.
  rewrite get_metadata_batch_unfold.
  now destruct (execute fuel _ w) as [[text | e |] w1].
Qed.

Lemma get_metadata_batch_raises json_loads fuel params w p e :
  running w = true -> _process w = Some p ->
  fst (get_metadata_batch json_loads fuel params w) = Raise e -> e = not_json.
Proof.
  intros Hr Hp. rewrite get_metadata_batch_unfold.
  pose proof (execute_no_raise fuel ([B "-G"; B "-j"; B "-n"] ++ iterate params)
                w p e Hr Hp) as Hn.
  destruct (execute fuel _ w) as [[text | e' |] w1]; simpl in *.
  - destruct (json_loads text); [discriminate | now intros [= <-]].
  - congruence.
  - discriminate.
Qed.

Lemma lines_chars s :
  lines (map (fun c : ascii => [c]) s) = concat (map (fun c => [c; nl]) s).
Proof.
  unfold lines. induction s as [| c s IH]; [reflexivity |].
  simpl. now rewrite IH.
Qed.

Lemma lines_app l1 l2 : lines (l1 ++ l2) = lines l1 ++ lines l2.
Proof. unfold lines. now rewrite map_app, concat_app. Qed.

(** X6: [get_metadata_batch] does not tell a string from a list of file
    names: given a string on a running instance it raises no [TypeError] and
    sends a batch with one argument per character of the string. *)
Theorem get_metadata_batch_unpacks_string
    (json_loads : bytes -> option pyval) (fuel : nat) (s : bytes)
    (w : World) (p : Popen) :
  running w = true -> _process w = Some p ->
  trace (snd (get_metadata_batch json_loads fuel (AStr s) w)) =
    trace w ++
    [Write (pid p)
       (B "-G" ++ [nl] ++ B "-j" ++ [nl] ++ B "-n" ++ [nl] ++
        concat (map (fun c => [c; nl]) s) ++ B "-execute" ++ [nl]);
     Flush (pid p)] /\
  (forall msg,
     fst (get_metadata_batch json_loads fuel (AStr s) w) <> Raise (TypeError msg)).
Proof.
  intros Hr Hp. split.
  - rewrite get_metadata_batch_snd.
    rewrite (proj1 (execute_trace fuel _ w p Hr Hp)).
    unfold batch_text. simpl iterate. rewrite lines_app, lines_chars.
    unfold lines. simpl. rewrite <- ?app_assoc. reflexivity.
  - intros msg Hraise.
    pose proof (get_metadata_batch_raises json_loads fuel (AStr s) w p _ Hr Hp Hraise).
    discriminate.
Qed.

Lemma get_metadata_batch_unpacks_string_witness :
  trace (snd (get_metadata_batch loads_nothing 0 (AStr (B "a.b")) (started silent_tool))) =
    trace (started silent_tool) ++
    [Write 0 (B "-G" ++ [nl] ++ B "-j" ++ [nl] ++ B "-n" ++ [nl] ++
              B "a" ++ [nl] ++ B "." ++ [nl] ++ B "b" ++ [nl] ++
              B "-execute" ++ [nl]);
     Flush 0].
Proof.
  apply (proj1 (get_metadata_batch_unpacks_string loads_nothing 0 (B "a.b")
                  (started silent_tool) (process_of silent_tool)
                  eq_refl eq_refl)).
Defined.

(** X7: on a running instance [get_tags_batch] sends one batch: the options
    [-G], [-j], [-n], then every tag with a dash put before it, in order, then
    the file names, in order, then [-execute]. *)
Theorem get_tags_batch_sends_dashed_tags
    (json_loads : bytes -> option pyval) (fuel : nat) (tags filenames : list bytes)
    (w : World) (p : Popen) :
  running w = true -> _process w = Some p ->
  trace (snd (get_tags_batch json_loads fuel (AIter tags) (AIter filenames) w)) =
    trace w ++
    [Write (pid p)
       (B "-G" ++ [nl] ++ B "-j" ++ [nl] ++ B "-n" ++ [nl] ++
        concat (map (fun t => B "-" ++ t ++ [nl]) tags) ++
        concat (map (fun f => f ++ [nl]) filenames) ++
        B "-execute" ++ [nl]);
     Flush (pid p)].
Proof.
  intros Hr Hp. unfold get_tags_batch. simpl.
  rewrite get_metadata_batch_snd.
  rewrite (proj1 (execute_trace fuel _ w p Hr Hp)).
  unfold batch_text. simpl iterate. rewrite !lines_app.
  unfold lines. rewrite map_map. simpl. rewrite <- ?app_assoc.
  reflexivity.
Qed.

Lemma get_tags_batch_sends_dashed_tags_witness :
  trace (snd (get_tags_batch loads_nothing 0 (AIter [B "EXIF:Model"])
                (AIter [B "a.jpg"]) (started silent_tool))) =
    trace (started silent_tool) ++
    [Write 0 (B "-G" ++ [nl] ++ B "-j" ++ [nl] ++ B "-n" ++ [nl] ++
              B "-EXIF:Model" ++ [nl] ++ B "a.jpg" ++ [nl] ++
              B "-execute" ++ [nl]);
     Flush 0].
Proof.
  apply (get_tags_batch_sends_dashed_tags loads_nothing 0 [B "EXIF:Model"]
           [B "a.jpg"] (started silent_tool) (process_of silent_tool)
           eq_refl eq_refl).
Defined.

(** X8: on an instance that is not running every query helper given
    well-typed arguments raises the [ValueError] of [execute] and leaves the
    world as it was. *)
Theorem helpers_require_running
    (json_loads : bytes -> option pyval) (fuel : nat) (w : World) :
  running w = false ->
  (forall params,
     get_metadata_batch json_loads fuel params w = (Raise not_running, w)) /\
  (forall filename,
     get_metadata json_loads fuel filename w = (Raise not_running, w)) /\
  (forall tags filenames,
     get_tags_batch json_loads fuel (AIter tags) (AIter filenames) w =
       (Raise not_running, w)) /\
  (forall tags filename,
     get_tags json_loads fuel (AIter tags) filename w = (Raise not_running, w)) /\
  (forall tag filenames,
     get_tag_batch json_loads fuel tag (AIter filenames) w = (Raise not_running, w)) /\
  (forall tag filename,
     get_tag json_loads fuel tag filename w = (Raise not_running, w)).
Proof.
  intros Hr.
  assert (forall params,
    get_metadata_batch json_loads fuel params w = (Raise not_running, w)) as Hb.
  { intros params. rewrite get_metadata_batch_unfold.
    now rewrite (execute_stopped fuel _ w Hr). }
  assert (forall tags filenames,
    get_tags_batch json_loads fuel (AIter tags) (AIter filenames) w =
      (Raise not_running, w)) as Ht.
  { intros tags filenames. unfold get_tags_batch. simpl. apply Hb. }
  repeat split; intros.
  - apply Hb.
  - unfold get_metadata. cbv [mbind M_bind]. now rewrite Hb.
  - apply Ht.
  - unfold get_tags. cbv [mbind M_bind]. now rewrite Ht.
  - unfold get_tag_batch. cbv [mbind M_bind]. now rewrite Ht.
  - unfold get_tag, get_tag_batch. cbv [mbind M_bind]. now rewrite Ht.
Qed.

Lemma helpers_require_running_witness :
  get_tag loads_nothing 4 (B "EXIF:Model") (B "a.jpg") (__init__ None polite_tool) =
    (Raise not_running, __init__ None polite_tool).
Proof.
  apply (helpers_require_running loads_nothing 4 (__init__ None polite_tool) eq_refl).
Defined.

Lemma get_metadata_batch_through json_loads fuel params w p body later :
  running w = true -> _process w = Some p ->
  responds p body later fuel ->
  get_metadata_batch json_loads fuel params w =
    (match json_loads body with Some v => Ret v | None => Raise not_json end,
     answered ([B "-G"; B "-j"; B "-n"] ++ iterate params) later p w).
Proof.
  intros Hr Hp (cs & Hout & Hne & Hcat & Hfirst & Hfuel).
  rewrite get_metadata_batch_unfold. rewrite Hcat in Hfirst.
  now rewrite (execute_through fuel _ w p cs later body
                 Hr Hp Hout Hne Hcat (first_only_at_end body Hfirst) Hfuel).
Qed.

Lemma tag_loop_missing (good : list dict) : forall bad rest result w,
  Forall (fun d => dict_lookup SourceFile d <> None) good ->
  dict_lookup SourceFile bad = None ->
  tag_loop (map PDict (good ++ bad :: rest)) result w =
    (Raise (KeyError SourceFile), w).
Proof.
  induction good as [| d good IH]; intros bad rest result w Hgood Hbad.
  - simpl app. change (map PDict (bad :: rest)) with (PDict bad :: map PDict rest).
    now apply tag_loop_key_error.
  - inversion Hgood as [| d' l' Hd Hrest]; subst d' l'.
    change (map PDict ((d :: good) ++ bad :: rest))
      with (PDict d :: map PDict (good ++ bad :: rest)).
    rewrite tag_loop_cons, method_pop_dict.
    destruct (dict_lookup SourceFile d); [| congruence].
    now apply IH.
Qed.

Lemma tag_value_only (d : dict) k v :
  k <> SourceFile ->
  (forall kv, In kv d -> fst kv = SourceFile \/ kv = (k, v)) ->
  In (k, v) d ->
  tag_value d = v.
Proof.
  intros Hk. unfold tag_value, dict_remove.
  induction d as [| [k' v'] d IH]; intros Hall Hin; [destruct Hin |].
  simpl. case_bool_decide as Hk'; simpl.
  - apply IH.
    + intros kv Hkv. apply Hall. now right.
    + destruct Hin as [[= -> ->] | Hin]; [congruence | exact Hin].
  - destruct (Hall (k', v') (or_introl eq_refl)) as [Hsf | [= -> ->]];
      [simpl in Hsf; congruence | reflexivity].
Qed.

(** X9: the single-file forms [get_metadata] and [get_tags] return the first
    element of the list the response decodes to, and raise [IndexError] when
    that list is empty; either way the batch has been sent and its response
    taken off the pipe. *)
Theorem single_file_forms_take_first
    (json_loads : bytes -> option pyval) (fuel : nat) (filename : bytes)
    (w : World) (p : Popen) (body : bytes) (later : list bytes)
    (items : list pyval) :
  running w = true -> _process w = Some p ->
  responds p body later fuel ->
  json_loads body = Some (PList items) ->
  get_metadata json_loads fuel filename w =
    (match items with [] => Raise IndexError | v :: _ => Ret v end,
     answered [B "-G"; B "-j"; B "-n"; filename] later p w) /\
  (forall tags,
     get_tags json_loads fuel (AIter tags) filename w =
       (match items with [] => Raise IndexError | v :: _ => Ret v end,
        answered ([B "-G"; B "-j"; B "-n"] ++ map (fun t => B "-" ++ t) tags ++ [filename])
          later p w)).
Proof.
  intros Hr Hp Hresp Hloads. split.
  - unfold get_metadata. cbv [mbind M_bind].
    rewrite (get_metadata_batch_through json_loads fuel _ w p body later Hr Hp Hresp).
    rewrite Hloads. now destruct items.
  - intros tags. unfold get_tags, get_tags_batch. simpl isinstance_basestring.
    cbv [mbind M_bind]. cbv iota.
    rewrite (get_metadata_batch_through json_loads fuel _ w p body later Hr Hp Hresp).
    rewrite Hloads. now destruct items.
Qed.

Lemma polite_responds : responds (process_of polite_tool) (B "[]") [B "later"] 16.
Proof.
  exists [B "[]"; B "{rea"; B "dy}" ++ [nl]].
  split; [reflexivity |]. split; [repeat constructor; discriminate |].
  split; [reflexivity |]. split; [reflexivity | simpl; lia].
Defined.

Lemma single_file_forms_take_first_witness :
  fst (get_metadata loads_nothing 16 (B "a.jpg") (started polite_tool)) =
    Raise IndexError.
Proof.
  rewrite (proj1 (single_file_forms_take_first loads_nothing 16 (B "a.jpg")
                    (started polite_tool) (process_of polite_tool) (B "[]")
                    [B "later"] [] eq_refl eq_refl polite_responds eq_refl)).
  reflexivity.
Defined.

(** X10: [get_tag] returns the value [get_tag_batch] computes for the first
    record of the response and raises [IndexError] when the response is an
    empty list; for a record that holds, besides [SourceFile], only the
    field [k] with value [v], that value is [v] wherever [SourceFile] stands
    in the record. *)
Theorem get_tag_first_record
    (json_loads : bytes -> option pyval) (fuel : nat) (tag filename : bytes)
    (w : World) (p : Popen) (body : bytes) (later : list bytes)
    (records : list dict) :
  running w = true -> _process w = Some p ->
  responds p body later fuel ->
  json_loads body = Some (PList (map PDict records)) ->
  Forall (fun d => dict_lookup SourceFile d <> None) records ->
  get_tag json_loads fuel tag filename w =
    (match records with [] => Raise IndexError | d :: _ => Ret (tag_value d) end,
     answered [B "-G"; B "-j"; B "-n"; B "-" ++ tag; filename] later p w) /\
  (forall d k v,
     k <> SourceFile ->
     (forall kv, In kv d -> fst kv = SourceFile \/ kv = (k, v)) ->
     In (k, v) d ->
     tag_value d = v).
Proof.
  intros Hr Hp Hresp Hloads Hall. split.
  - unfold get_tag, get_tag_batch, get_tags_batch. simpl isinstance_basestring.
    cbv [mbind M_bind]. cbv iota.
    rewrite (get_metadata_batch_through json_loads fuel _ w p body later Hr Hp Hresp).
    rewrite Hloads. simpl py_iter. cbv [mret M_ret].
    rewrite (tag_loop_records records [] _ Hall).
    now destruct records.
  - intros d k v. apply tag_value_only.
Qed.

Lemma get_tag_first_record_witness :
  fst (get_tag loads_model_first 16 (B "EXIF:Model") (B "a.jpg")
         (started polite_tool)) = Ret (PStr (B "X100")).
Proof.
  assert (Forall (fun d : dict => dict_lookup SourceFile d <> None) [model_first])
    as Hall by (repeat constructor; discriminate).
  rewrite (proj1 (get_tag_first_record loads_model_first 16 (B "EXIF:Model")
                    (B "a.jpg") (started polite_tool) (process_of polite_tool)
                    (B "[]") [B "later"] [model_first]
                    eq_refl eq_refl polite_responds eq_refl Hall)).
  reflexivity.
Defined.

(** X11: when the response decodes to a list of records one of which lacks
    the reserved [SourceFile] field, all records before it carrying it,
    [get_tag_batch] raises [KeyError] for [SourceFile] and returns no value
    at all, the values of the earlier records included. *)
Theorem get_tag_batch_missing_source_file
    (json_loads : bytes -> option pyval) (fuel : nat) (tag : bytes)
    (filenames : list bytes) (w : World) (p : Popen) (body : bytes)
    (later : list bytes) (good : list dict) (bad : dict) (rest : list dict) :
  running w = true -> _process w = Some p ->
  responds p body later fuel ->
  json_loads body = Some (PList (map PDict (good ++ bad :: rest))) ->
  Forall (fun d => dict_lookup SourceFile d <> None) good ->
  dict_lookup SourceFile bad = None ->
  get_tag_batch json_loads fuel tag (AIter filenames) w =
    (Raise (KeyError (B "SourceFile")),
     answered ([B "-G"; B "-j"; B "-n"; B "-" ++ tag] ++ filenames) later p w).
Proof.
  intros Hr Hp Hresp Hloads Hgood Hbad.
  unfold get_tag_batch, get_tags_batch. simpl isinstance_basestring.
  cbv [mbind M_bind]. cbv iota.
  rewrite (get_metadata_batch_through json_loads fuel _ w p body later Hr Hp Hresp).
  rewrite Hloads. simpl py_iter. cbv [mret M_ret].
  now rewrite (tag_loop_missing good bad rest [] _ Hgood Hbad).
Qed.

Lemma get_tag_batch_missing_source_file_witness :
  fst (get_tag_batch loads_unnamed_record 16 (B "EXIF:Model")
         (AIter [B "a.jpg"; B "b.jpg"]) (started polite_tool)) =
    Raise (KeyError (B "SourceFile")).
Proof.
  assert (Forall (fun d : dict => dict_lookup SourceFile d <> None) [model_first])
    as Hgood by (repeat constructor; discriminate).
  rewrite (get_tag_batch_missing_source_file loads_unnamed_record 16
             (B "EXIF:Model") [B "a.jpg"; B "b.jpg"] (started polite_tool)
             (process_of polite_tool) (B "[]") [B "later"] [model_first]
             [(B "EXIF:Model", PStr (B "X200"))] []
             eq_refl eq_refl polite_responds eq_refl Hgood eq_refl).
  reflexivity.
Defined.

(** * Every child is accounted for *)

Lemma accounted_with_stdout w p pipe :
  accounted w -> _process w = Some p -> accounted (with_stdout pipe p w).
Proof.
  intros (Hc & Hn & Hp') Hp. split; [| split; assumption].
  now apply consistent_with_stdout.
Qed.

Lemma accounted_emit e w :
  is_spawn e = false -> is_communicate e = false ->
  accounted w -> accounted (emit e w).
Proof.
  intros Hs Hc (Hw & Hn & Hp). unfold accounted. simpl.
  rewrite !count_events_app. simpl. rewrite Hs, Hc.
  split; [exact Hw |]. split; lia.
Qed.

Lemma start_keeps_accounted : keeps accounted start.
Proof.
  intros w Hacc. pose proof (keeps_start w (proj1 Hacc)) as Hcons.
  destruct Hacc as (Hw & Hn & Hp). destruct (running w) eqn:Hr.
  - rewrite (start_running w Hr) in *. simpl snd in *.
    apply accounted_emit; [reflexivity | reflexivity |]. now repeat split.
  - rewrite (start_stopped w Hr) in *. simpl snd in *.
    split; [exact Hcons |]. simpl.
    rewrite !count_events_app, length_app. simpl. split; lia.
Qed.

Lemma terminate_keeps_accounted : keeps accounted terminate.
Proof.
  intros w Hacc. pose proof (keeps_terminate w (proj1 Hacc)) as Hcons.
  destruct Hacc as (Hw & Hn & Hp). destruct (running w) eqn:Hr.
  - unfold consistent in Hw. rewrite Hr in Hw. destruct Hw as (p & Hproc & Hc).
    rewrite (terminate_running w p Hr Hproc) in *. simpl snd in *.
    split; [exact Hcons |]. simpl. rewrite Hc in *.
    rewrite filter_cons_False by (now intros H; apply H).
    rewrite !count_events_app. simpl in *. split; lia.
  - rewrite (terminate_not_running w Hr). simpl. unfold consistent in Hw.
    now repeat split.
Qed.

Lemma run_call_keeps_accounted json_loads fuel c :
  keeps accounted (run_call json_loads fuel c).
Proof.
  assert (c <> Call_start -> c <> Call_terminate ->
          keeps accounted (run_call json_loads fuel c)) as Hquery.
  { intros Hs Ht. apply run_query_keeps; try assumption.
    - intros w p pipe. apply accounted_with_stdout.
    - intros w ch data. now apply accounted_emit.
    - intros w ch. now apply accounted_emit. }
  destruct c; try (apply Hquery; discriminate).
  - apply start_keeps_accounted.
  - apply terminate_keeps_accounted.
Qed.

Lemma run_calls_keeps_accounted json_loads fuel calls :
  keeps accounted (run_calls json_loads fuel calls).
Proof.
  induction calls as [| c calls IH]; [apply keeps_unchanged; reflexivity |].
  simpl. apply keeps_seq; [apply run_call_keeps_accounted | intros _; exact IH].
Qed.

(** X12: whatever methods are called on a new instance, in whatever order and
    however the calls end, afterwards the instance has at most one live
    child, it has one exactly when its running flag is set, and the number
    of children ever spawned is the number waited for plus the number alive. *)
Theorem at_most_one_child
    (json_loads : bytes -> option pyval) (fuel : nat) (calls : list call)
    (executable_ : option bytes) (tool : nat -> list bytes) :
  let w := snd (run_calls json_loads fuel calls (__init__ executable_ tool)) in
  length (children w) <= 1 /\
  (running w = true <-> length (children w) = 1) /\
  (running w = true <-> _process w <> None) /\
  count_events is_spawn (trace w) =
    count_events is_communicate (trace w) + length (children w).
Proof.
  intros w.
  assert (accounted w) as (Hcons & Hcount & _).
  { apply run_calls_keeps_accounted. repeat split. }
  unfold consistent in Hcons. destruct (running w).
  - destruct Hcons as (p & Hp & Hc). rewrite Hc, Hp. simpl.
    repeat split; try lia; try congruence. rewrite Hcount, Hc. reflexivity.
  - destruct Hcons as [Hp Hc]. rewrite Hc, Hp. simpl.
    repeat split; try lia; try congruence. rewrite Hcount, Hc. reflexivity.
Qed.

(** X13: a [with] statement over a well-formed instance ends the way its body
    ends: the value the body returns is returned, the exception it raises
    propagates, and a body that does not return keeps the statement from
    returning. *)
Theorem with_statement_yields_body_outcome
    (json_loads : bytes -> option pyval) (fuel : nat) (calls : list call)
    (w : World) :
  consistent w ->
  fst (with_statement (run_calls json_loads fuel calls) w) =
    fst (run_calls json_loads fuel calls (snd (__enter__ w))).
Proof.
  intros Hw. unfold with_statement, __enter__, __exit__.
  pose proof (start_returns w) as Hs. pose proof (keeps_start w Hw) as Hw1.
  destruct (start w) as [o w1]. simpl in Hs, Hw1. subst o. simpl snd.
  pose proof (keeps_run_calls json_loads fuel calls w1 Hw1) as Hw2.
  destruct (run_calls json_loads fuel calls w1) as [[a | e |] w2]; simpl in Hw2.
  - now destruct (terminate_consistent w2 Hw2) as (w3 & -> & _).
  - now destruct (terminate_consistent w2 Hw2) as (w3 & -> & _).
  - reflexivity.
Qed.

Lemma with_statement_yields_body_outcome_witness :
  fst (with_statement
         (run_calls loads_nothing 16
            [Call_get_tags (AStr (B "EXIF:Model")) (B "a.jpg")])
         (__init__ None polite_tool)) =
    Raise (TypeError (B "The argument 'tags' must be an iterable of strings")).
Proof.
  assert (consistent (__init__ None polite_tool)) as Hw by (split; reflexivity).
  rewrite (with_statement_yields_body_outcome loads_nothing 16
             [Call_get_tags (AStr (B "EXIF:Model")) (B "a.jpg")]
             (__init__ None polite_tool) Hw).
  reflexivity.
Defined.

(** * When the read loop returns *)

Lemma before_first_occurs pat : forall pre suf,
  before_first pat (pre ++ pat ++ suf) <> None.
Proof.
  induction pre as [| c pre IH]; intros suf.
  - simpl app.
    assert (take (length pat) (pat ++ suf) = pat) as Hpre
      by now rewrite take_app_length.
    destruct (pat ++ suf) as [| c s]; simpl;
      now rewrite bool_decide_eq_true_2.
  - simpl. case_bool_decide; [discriminate |].
    specialize (IH suf). now destruct (before_first pat (pre ++ pat ++ suf)).
Qed.

Lemma accumulate_nil k : forall output, accumulate k output [] = (output, []).
Proof.
  induction k as [| k IH]; intros output; [reflexivity |].
  simpl. rewrite IH. now rewrite app_nil_r.
Qed.

Lemma accumulate_drains k : forall output pipe,
  Forall (fun c : bytes => c <> []) pipe ->
  length (concat pipe) <= k ->
  accumulate k output pipe = (output ++ concat pipe, []).
Proof.
  induction k as [| k IH]; intros output pipe Hne Hlen.
  - destruct pipe as [| c rest]; [simpl; now rewrite app_nil_r |].
    exfalso. inversion Hne as [| c' l' Hc _]; subst.
    simpl in Hlen. rewrite length_app in Hlen.
    destruct c; [congruence | simpl in Hlen; lia].
  - destruct pipe as [| c rest].
    + rewrite accumulate_nil. simpl. now rewrite app_nil_r.
    + inversion Hne as [| c' l' Hc Hrest]; subst c' l'.
      assert (0 < length c) by (destruct c; [congruence | simpl; lia]).
      simpl in Hlen. rewrite length_app in Hlen.
      rewrite accumulate_step. simpl pipe_read.
      destruct (Nat.leb_spec (length c) block_size) as [Hle | Hgt]; simpl fst; simpl snd.
      * rewrite IH by (assumption || lia). simpl. now rewrite <- app_assoc.
      * rewrite IH.
        -- simpl. rewrite <- !app_assoc. f_equal.
           rewrite (app_assoc (take _ _)). now rewrite take_drop.
        -- constructor; [| exact Hrest].
           intros Hnil. apply (f_equal length) in Hnil.
           rewrite length_drop in Hnil. simpl in Hnil. lia.
        -- simpl. rewrite length_app, length_drop. unfold block_size in *. lia.
Qed.

(** X14: when the sentinel occurs nowhere in what the child writes, for
    instance because the child has died, [execute] on a running instance does
    not return, however many reads it is given. *)
Theorem execute_hangs_without_sentinel
    (fuel : nat) (params : list bytes) (w : World) (p : Popen) :
  running w = true -> _process w = Some p ->
  before_first sentinel (concat (stdout p)) = None ->
  fst (execute fuel params w) = Diverge.
Proof.
  intros Hr Hp Hnone. apply (execute_diverges fuel params w p Hr Hp).
  intros k _. destruct (endswith (fst (accumulate k [] (stdout p))) sentinel) eqn:Hend;
    [| reflexivity].
  exfalso. apply endswith_true in Hend as [pre Hpre].
  pose proof (accumulate_conserves k [] (stdout p)) as Hcons.
  rewrite Hpre in Hcons. simpl in Hcons. rewrite <- app_assoc in Hcons.
  rewrite <- Hcons in Hnone.
  exact (before_first_occurs sentinel pre _ Hnone).
Qed.

Lemma execute_hangs_without_sentinel_witness :
  fst (execute 1000 [B "a.jpg"] (started silent_tool)) = Diverge.
Proof.
  apply (execute_hangs_without_sentinel 1000 [B "a.jpg"] (started silent_tool)
           (process_of silent_tool) eq_refl eq_refl eq_refl).
Defined.

(** X15: when everything the child writes arrives in non-empty pieces and
    ends with the sentinel, [execute] on a running instance returns, within
    as many reads as there are bytes, a value that followed by the sentinel is
    a prefix of what the child wrote. *)
Theorem execute_returns_when_output_ends_with_sentinel
    (params : list bytes) (w : World) (p : Popen) (body : bytes) :
  running w = true -> _process w = Some p ->
  Forall (fun c : bytes => c <> []) (stdout p) ->
  concat (stdout p) = body ++ sentinel ->
  exists r w' rest,
    execute (length (concat (stdout p))) params w = (Ret r, w') /\
    body ++ sentinel = r ++ sentinel ++ rest.
Proof.
  intros Hr Hp Hne Hcat.
  set (fuel := length (concat (stdout p))).
  assert (_process (batch_sent params p w) = Some p) as Hp' by exact Hp.
  destruct (stops_or_never fuel [] (stdout p)) as [(k & Hk & Hstop) | Hnever].
  - destruct (proj1 (endswith_true _ _) (proj1 Hstop)) as [r Hacc].
    exists r. eexists. exists (concat (snd (accumulate k [] (stdout p)))).
    split.
    + rewrite (execute_running fuel params w p Hr Hp).
      rewrite (read_loop_stops fuel k [] _ p Hp' Hk Hstop).
      rewrite Hacc. now rewrite (slice_to_strips r sentinel sentinel_nonempty).
    + pose proof (accumulate_conserves k [] (stdout p)) as Hcons.
      rewrite Hacc in Hcons. simpl in Hcons.
      rewrite <- app_assoc in Hcons. now rewrite Hcons.
  - exfalso. specialize (Hnever fuel (le_n fuel)).
    rewrite (accumulate_drains fuel [] (stdout p) Hne (le_n _)) in Hnever.
    simpl in Hnever. rewrite Hcat, endswith_app in Hnever. discriminate.
Qed.

Lemma execute_returns_when_output_ends_with_sentinel_witness :
  exists r w' rest,
    execute (length (concat (echoing_tool 0))) [B "a.jpg"] echoing_world = (Ret r, w') /\
    B "a{ready}" ++ [nl] ++ B "b" ++ sentinel = r ++ sentinel ++ rest.
Proof.
  assert (Forall (fun c : bytes => c <> []) (stdout echoing_process)) as Hne
    by (repeat constructor; discriminate).
  exact (execute_returns_when_output_ends_with_sentinel [B "a.jpg"] echoing_world
           echoing_process (B "a{ready}" ++ [nl] ++ B "b") eq_refl eq_refl Hne eq_refl).
Defined.
